(** * A shallow embedding of the query construction engine of sqlx-paginated

    The modelled sources are
    - [src/paginated_query_as/models.rs] (FilterOperator, FilterValue, Filter),
    - [src/paginated_query_as/internal/internal_utils.rs] (FieldType),
    - [src/paginated_query_as/internal/models_internal.rs] (QuerySearchParams,
      QueryPaginationParams, ComputedProperty),
    - [src/paginated_query_as/internal/dialects/*] (QueryDialect),
    - [src/paginated_query_as/builders/query_builders/query_builder.rs]
      (QueryBuilder::is_column_safe, with_search, with_filters, ...),
    - [src/paginated_query_as/builders/paginated_query_builder.rs]
      (PaginatedQueryBuilder::fetch_paginated).

    Rust [String]s are byte strings ([string]); a [usize] is a [nat]; an
    [i64] is a [Z] with its wrap-around written out where it matters;
    a [HashMap] is a [gmap]; a [Vec] is a [list]. *)

From Stdlib Require Import Ascii String ZArith Lia.
From Stdlib Require Import Numbers.DecimalString.
From stdpp Require Import base gmap strings list.

Open Scope string_scope.

(* ------------------------------------------------------------------ *)
(** ** String helpers (the parts of [std::fmt] and [str] that are used) *)

(** [format!("{}{}...", a, b, ...)] *)
Definition format (parts : list string) : string := String.concat EmptyString parts.

(** The double quote character, ASCII 34. *)
Definition dquote : ascii := "034"%char.

Definition is_digit (c : ascii) : bool :=
  (48 <=? nat_of_ascii c)%nat && (nat_of_ascii c <=? 57)%nat.

Definition digit_value (c : ascii) : nat := nat_of_ascii c - 48.

Definition digit_char (d : nat) : ascii := ascii_of_nat (48 + d).

(** [usize::to_string]: decimal digits, most significant first. *)
Fixpoint dec_aux (fuel n : nat) (acc : string) : string :=
  match fuel with
  | O => acc
  | S fuel' =>
      let acc' := String (digit_char (n mod 10)) acc in
      if (n <? 10)%nat then acc' else dec_aux fuel' (n / 10) acc'
  end.

Definition usize_to_string (n : nat) : string := dec_aux (S n) n EmptyString.

(** [i64::to_string] *)
Definition i64_to_string (x : Z) : string := NilEmpty.string_of_int (Z.to_int x).

(** [str::replace] of the double quote by two double quotes. *)
Fixpoint double_quotes (s : string) : string :=
  match s with
  | EmptyString => EmptyString
  | String c s' =>
      if Ascii.eqb c dquote then String dquote (String dquote (double_quotes s'))
      else String c (double_quotes s')
  end.

(** [str::join] *)
Fixpoint join (sep : string) (xs : list string) : string :=
  match xs with
  | [] => EmptyString
  | [x] => x
  | x :: xs' => x ++ sep ++ join sep xs'
  end.

(** *** [str::trim] on UTF-8 text

    A Rust [String] is valid UTF-8; [trim] removes leading and trailing
    characters with the Unicode White_Space property ([char::is_whitespace]). *)
Fixpoint utf8_decode (bs : list Z) : list Z :=
  match bs with
  | [] => []
  | b0 :: r0 =>
      if (b0 <? 128)%Z then b0 :: utf8_decode r0
      else match r0 with
      | [] => [b0]
      | b1 :: r1 =>
          if (b0 <? 224)%Z then
            Z.lor (Z.shiftl (Z.land b0 31) 6) (Z.land b1 63) :: utf8_decode r1
          else match r1 with
          | [] => [b0; b1]
          | b2 :: r2 =>
              if (b0 <? 240)%Z then
                Z.lor (Z.shiftl (Z.land b0 15) 12)
                  (Z.lor (Z.shiftl (Z.land b1 63) 6) (Z.land b2 63)) :: utf8_decode r2
              else match r2 with
              | [] => [b0; b1; b2]
              | b3 :: r3 =>
                  Z.lor (Z.shiftl (Z.land b0 7) 18)
                    (Z.lor (Z.shiftl (Z.land b1 63) 12)
                       (Z.lor (Z.shiftl (Z.land b2 63) 6) (Z.land b3 63))) :: utf8_decode r3
              end
          end
      end
  end.

Fixpoint bytes_of (s : string) : list Z :=
  match s with
  | EmptyString => []
  | String c s' => Z.of_nat (nat_of_ascii c) :: bytes_of s'
  end.

Definition chars (s : string) : list Z := utf8_decode (bytes_of s).

(** [char::is_whitespace] *)
Definition char_is_whitespace (c : Z) : bool :=
  ((9 <=? c) && (c <=? 13))%Z || (c =? 32)%Z || (c =? 133)%Z || (c =? 160)%Z
  || (c =? 5760)%Z || ((8192 <=? c) && (c <=? 8202))%Z || (c =? 8232)%Z
  || (c =? 8233)%Z || (c =? 8239)%Z || (c =? 8287)%Z || (c =? 12288)%Z.

Fixpoint trim_start_chars (cs : list Z) : list Z :=
  match cs with
  | [] => []
  | c :: cs' => if char_is_whitespace c then trim_start_chars cs' else cs
  end.

Definition trim_chars (cs : list Z) : list Z :=
  rev (trim_start_chars (rev (trim_start_chars cs))).

(** [s.trim().is_empty()] *)
Definition trim_is_empty (s : string) : bool :=
  match trim_chars (chars s) with [] => true | _ => false end.

(** ASCII lower-casing, as [str::to_lowercase] does on ASCII letters. *)
Definition ascii_lower (c : ascii) : ascii :=
  let n := nat_of_ascii c in
  if (65 <=? n)%nat && (n <=? 90)%nat then ascii_of_nat (n + 32) else c.

Fixpoint to_lowercase (s : string) : string :=
  match s with
  | EmptyString => EmptyString
  | String c s' => String (ascii_lower c) (to_lowercase s')
  end.

(** [str::starts_with] *)
Fixpoint starts_with (s pat : string) : bool :=
  match pat, s with
  | EmptyString, _ => true
  | String p pat', String c s' => Ascii.eqb p c && starts_with s' pat'
  | String _ _, EmptyString => false
  end.

(* ------------------------------------------------------------------ *)
(** ** Data model *)

(** [internal_utils.rs]: [enum FieldType] *)
Module FieldType.
Inductive FieldType : Type :=
  | String | Uuid | Int | Float | Bool | DateTime | Date | Time | Unknown.
End FieldType.
Abbreviation FieldType := FieldType.FieldType.

#[global] Instance FieldType_eq_dec : EqDecision FieldType.
Proof. solve_decision. Defined.

(** [models.rs]: [enum FilterOperator] *)
Module FilterOperator.
Inductive FilterOperator : Type :=
  | Eq | Ne | Gt | Lt | Gte | Lte | Like | ILike | In | NotIn
  | IsNull | IsNotNull | Between | Contains.
End FilterOperator.
Abbreviation FilterOperator := FilterOperator.FilterOperator.

(** [models.rs]: [enum FilterValue]. A [Uuid] is carried by its
    hyphenated lower-case rendering and an [f64] by its [Display]
    rendering: these renderings are all the builder uses of them. *)
Module FilterValue.
Inductive FilterValue : Type :=
  | String (s : string)
  | Uuid (u : string)
  | Int (i : Z)
  | Float (f : string)
  | Bool (b : bool)
  | DateTime (s : string)
  | Date (s : string)
  | Time (s : string)
  | Array (a : list FilterValue)
  | Null.
End FilterValue.
Abbreviation FilterValue := FilterValue.FilterValue.

(** [FilterValue::to_bindable_string] *)
Fixpoint to_bindable_string (v : FilterValue) : string :=
  match v with
  | FilterValue.String s => s
  | FilterValue.Int i => i64_to_string i
  | FilterValue.Float f => f
  | FilterValue.Bool b => if b then "true" else "false"
  | FilterValue.Uuid u => u
  | FilterValue.DateTime dt => dt
  | FilterValue.Date d => d
  | FilterValue.Time t => t
  | FilterValue.Array arr =>
      match arr with [] => EmptyString | v0 :: _ => to_bindable_string v0 end
  | FilterValue.Null => EmptyString
  end.

(** [FilterValue::to_bindable_strings] *)
Definition to_bindable_strings (v : FilterValue) : list string :=
  match v with
  | FilterValue.Array arr => map to_bindable_string arr
  | _ => [to_bindable_string v]
  end.

(** [FilterValue::to_field_type] *)
Fixpoint to_field_type (v : FilterValue) : FieldType :=
  match v with
  | FilterValue.String _ => FieldType.String
  | FilterValue.Int _ => FieldType.Int
  | FilterValue.Float _ => FieldType.Float
  | FilterValue.Bool _ => FieldType.Bool
  | FilterValue.Uuid _ => FieldType.Uuid
  | FilterValue.DateTime _ => FieldType.DateTime
  | FilterValue.Date _ => FieldType.Date
  | FilterValue.Time _ => FieldType.Time
  | FilterValue.Array arr =>
      match arr with [] => FieldType.Unknown | v0 :: _ => to_field_type v0 end
  | FilterValue.Null => FieldType.Unknown
  end.

(** [models.rs]: [struct Filter] *)
Record Filter := mkFilter {
  field : string;
  operator : FilterOperator;
  value : FilterValue;
}.

(** [models_internal.rs]: [struct QueryPaginationParams] *)
Record QueryPaginationParams := mkQueryPaginationParams {
  page : Z;
  page_size : Z;
}.

Inductive QuerySortDirection := Ascending | Descending.

(** [models_internal.rs]: [struct QuerySortParams] *)
Record QuerySortParams := mkQuerySortParams {
  sort_direction : QuerySortDirection;
  sort_column : string;
}.

(** [models_internal.rs]: [struct QuerySearchParams] *)
Record QuerySearchParams := mkQuerySearchParams {
  search : option string;
  search_columns : option (list string);
}.

(** [models.rs]: [struct QueryParams] *)
Record QueryParams := mkQueryParams {
  pagination : QueryPaginationParams;
  sort : QuerySortParams;
  search_params : QuerySearchParams;
  filters : list Filter;
}.

(** [models_internal.rs]: [struct ComputedProperty] *)
Record ComputedProperty := mkComputedProperty {
  expression : string;
  joins : list string;
  cp_field_type : FieldType;
}.

(** [query_dialect.rs]: [trait QueryDialect] *)
Record QueryDialect := mkQueryDialect {
  quote_identifier : string -> string;
  placeholder : nat -> string;
  type_cast : FieldType -> string;
}.

(** Modelled from the spec: the [FieldType]-indexed [type_cast] of the
    Postgres dialect, which the trait [QueryDialect] declares and the
    builder calls but whose implementation is not in the sources (the
    file [postgres_dialect.rs] still carries an older [&str] version).
    Spec 4.1: explicit cast suffixes [::bigint], [::boolean], [::uuid],
    [::timestamptz], [::date], [::time], [::float8]; string and unknown
    types return the empty string. *)
Definition get_postgres_type_casting (ft : FieldType) : string :=
  match ft with
  | FieldType.Int => "::bigint"
  | FieldType.Float => "::float8"
  | FieldType.Bool => "::boolean"
  | FieldType.Uuid => "::uuid"
  | FieldType.DateTime => "::timestamptz"
  | FieldType.Date => "::date"
  | FieldType.Time => "::time"
  | FieldType.String => EmptyString
  | FieldType.Unknown => EmptyString
  end.

(** [postgres_dialect.rs]: [impl QueryDialect for PostgresDialect] *)
Definition PostgresDialect : QueryDialect := {|
  quote_identifier := fun ident => format [String dquote EmptyString; double_quotes ident;
                                           String dquote EmptyString];
  placeholder := fun position => "$" ++ usize_to_string position;
  type_cast := get_postgres_type_casting;
|}.

(** [sqlite_dialect.rs]: [impl QueryDialect for SqliteDialect]; the
    SQLite casting ([get_sqlite_type_casting]) is empty in every case. *)
Definition SqliteDialect : QueryDialect := {|
  quote_identifier := fun ident => format [String dquote EmptyString; double_quotes ident;
                                           String dquote EmptyString];
  placeholder := fun _ => "?";
  type_cast := fun _ => EmptyString;
|}.

(** Modelled from the spec: [ColumnProtection], whose definition is not in
    the sources (only its blocked lists, [column_protection_consts.rs],
    are). Spec 4.3: a column is unsafe when it, or its case-insensitive
    prefix, matches an entry of the dialect's blocked list. *)
Record ColumnProtection := mkColumnProtection { blocked : list string }.

Definition is_safe (p : ColumnProtection) (column : string) : bool :=
  negb (existsb (fun pat => starts_with (to_lowercase column) (to_lowercase pat))
                (blocked p)).

(** [column_protection_consts.rs] *)
Definition COLUMN_PROTECTION_BLOCKED_POSTGRES : list string :=
  ["pg_"; "information_schema."; "oid"; "tableoid"; "xmin"; "xmax"; "cmin";
   "cmax"; "ctid"; "pg_catalog"; "pg_toast"; "pg_temp"; "pg_internal"].

Definition COLUMN_PROTECTION_BLOCKED_SQLITE : list string :=
  ["sqlite_master"; "sqlite_schema"; "sqlite_temp_master"; "sqlite_sequence";
   "sqlite_"; "rowid"; "_rowid_"].

(** A column mapper: [Box<dyn Fn(&str, &str) -> (String, Option<String>)>]. *)
Definition Mapper := string -> string -> string * option string.

(** [query_builder.rs]: [struct QueryBuilder]; the [PgArguments] /
    [SqliteArguments] buffer is the list of the bound [String]s. *)
Record QueryBuilder := mkQueryBuilder {
  conditions : list string;
  arguments : list string;
  mappers : gmap string Mapper;
  valid_columns : list string;
  field_meta : gmap string FieldType;
  protection : option ColumnProtection;
  protection_enabled : bool;
  column_validation_enabled : bool;
  dialect : QueryDialect;
  computed_properties : gmap string ComputedProperty;
  active_joins : list string;
  table_prefix : option string;
}.

(* ------------------------------------------------------------------ *)
(** ** [impl QueryBuilder] *)

Definition is_empty {A} (l : list A) : bool := match l with [] => true | _ => false end.

(** [Vec::contains] on [String]s *)
Definition contains (l : list string) (s : string) : bool := existsb (String.eqb s) l.

(** The builder with its three accumulators replaced. *)
Definition set_state (b : QueryBuilder) (cs args js : list string) : QueryBuilder :=
  mkQueryBuilder cs args (mappers b) (valid_columns b) (field_meta b) (protection b)
    (protection_enabled b) (column_validation_enabled b) (dialect b)
    (computed_properties b) js (table_prefix b).

(** [QueryBuilder::is_column_safe] *)
Definition is_column_safe (b : QueryBuilder) (column : string) : bool :=
  match computed_properties b !! column with
  | Some _ => true
  | None =>
      let column_exists :=
        if column_validation_enabled b then contains (valid_columns b) column else true in
      if negb (protection_enabled b) then column_exists
      else match protection b with
           | Some p => column_exists && is_safe p column
           | None => column_exists
           end
  end.

(** One iteration of the loop of [QueryBuilder::activate_joins]. *)
Definition activate_join (active : list string) (join : string) : list string :=
  if contains active join then active else (active ++ [join])%list.

(** [QueryBuilder::activate_joins] *)
Definition activate_joins (b : QueryBuilder) (property : ComputedProperty) : QueryBuilder :=
  set_state b (conditions b) (arguments b) (fold_left activate_join (joins property) (active_joins b)).

(** [QueryBuilder::format_column] *)
Definition format_column (b : QueryBuilder) (column : string) : string :=
  match table_prefix b with
  | Some prefix =>
      format [quote_identifier (dialect b) prefix; "."; quote_identifier (dialect b) column]
  | None => quote_identifier (dialect b) column
  end.

(** The closure given to [filter_map] in [QueryBuilder::with_search]: the
    fragment for one search column, and the computed property whose joins
    it pushes onto [joins_to_activate]. *)
Definition search_column (b : QueryBuilder) (search : string) (next_argument : nat)
    (column : string) : option (string * option ComputedProperty) :=
  match computed_properties b !! column with
  | Some prop =>
      let placeholder := placeholder (dialect b) next_argument in
      Some (if decide (cp_field_type prop = FieldType.String)
            then format ["LOWER("; expression prop; ") LIKE LOWER("; placeholder; ")"]
            else format ["("; expression prop; ")::text LIKE "; placeholder],
            Some prop)
  | None =>
      let mapper := mappers b !! column in
      if match mapper with None => negb (is_column_safe b column) | Some _ => false end
      then None
      else
        let field_type := default FieldType.Unknown (field_meta b !! column) in
        let mapped_column := (fun m => m column search) <$> mapper in
        let table_column :=
          match mapped_column with Some (tc, _) => tc | None => format_column b column end in
        let placeholder :=
          match mapped_column with
          | Some (_, Some p) => p
          | _ => placeholder (dialect b) next_argument
          end in
        Some (if decide (field_type = FieldType.String)
              then format ["LOWER("; table_column; ") LIKE LOWER("; placeholder; ")"]
              else format [table_column; "::text LIKE "; placeholder],
              None)
  end.

(** [QueryBuilder::with_search] *)
Definition with_search (b : QueryBuilder) (params : QueryParams) : QueryBuilder :=
  match search (search_params params) with
  | None => b
  | Some search =>
      match search_columns (search_params params) with
      | None => b
      | Some columns =>
          if negb (is_empty columns) && negb (trim_is_empty search) then
            let pattern := format ["%"; search; "%"] in
            let next_argument := length (arguments b) + 1 in
            let results := omap (search_column b search next_argument) columns in
            let search_conditions := map fst results in
            let joins_to_activate := omap snd results in
            let b := fold_left activate_joins joins_to_activate b in
            if negb (is_empty search_conditions) then
              set_state b ((conditions b ++ [format ["("; join " OR " search_conditions; ")"]])%list)
                ((arguments b ++ [pattern])%list) (active_joins b)
            else b
          else b
      end
  end.

(** The arms of [match filter.operator] in [QueryBuilder::with_filters]
    that bind one value: [self.arguments.len() + 1] is the placeholder
    ordinal, then the value is added to the arguments. *)
Definition bind_one (D : QueryDialect) (args : list string) (value : string)
    : string * list string :=
  (placeholder D (length args + 1), (args ++ [value])%list).

(** The [map] closure of the [In] and [NotIn] arms: one placeholder per
    value, each followed by the type cast, each value added in turn. *)
Fixpoint bind_each (D : QueryDialect) (type_cast : string) (args : list string)
    (values : list string) : list string * list string :=
  match values with
  | [] => ([], args)
  | v :: vs =>
      let placeholder := placeholder D (length args + 1) in
      let '(placeholders, args') := bind_each D type_cast (args ++ [v])%list vs in
      (format [placeholder; type_cast] :: placeholders, args')
  end.

(** [match filter.operator { ... }] of [QueryBuilder::with_filters]: the
    condition and the new argument list, or [None] for the [continue] of
    a [Between] with fewer than two values. *)
Definition filter_condition (D : QueryDialect) (args : list string) (op : FilterOperator)
    (table_column : string) (effective_field_type : FieldType) (type_cast : string)
    (value : FilterValue) : option (string * list string) :=
  let text_like :=
    negb (bool_decide (effective_field_type = FieldType.String))
    && negb (bool_decide (effective_field_type = FieldType.Unknown)) in
  match op with
  | FilterOperator.Eq =>
      let '(placeholder, args) := bind_one D args (to_bindable_string value) in
      Some (format [table_column; " = "; placeholder; type_cast], args)
  | FilterOperator.Ne =>
      let '(placeholder, args) := bind_one D args (to_bindable_string value) in
      Some (format [table_column; " != "; placeholder; type_cast], args)
  | FilterOperator.Gt =>
      let '(placeholder, args) := bind_one D args (to_bindable_string value) in
      Some (format [table_column; " > "; placeholder; type_cast], args)
  | FilterOperator.Lt =>
      let '(placeholder, args) := bind_one D args (to_bindable_string value) in
      Some (format [table_column; " < "; placeholder; type_cast], args)
  | FilterOperator.Gte =>
      let '(placeholder, args) := bind_one D args (to_bindable_string value) in
      Some (format [table_column; " >= "; placeholder; type_cast], args)
  | FilterOperator.Lte =>
      let '(placeholder, args) := bind_one D args (to_bindable_string value) in
      Some (format [table_column; " <= "; placeholder; type_cast], args)
  | FilterOperator.Like =>
      let '(placeholder, args) := bind_one D args (to_bindable_string value) in
      Some (if text_like then format [table_column; "::text LIKE "; placeholder]
            else format [table_column; " LIKE "; placeholder], args)
  | FilterOperator.ILike =>
      let '(placeholder, args) := bind_one D args (to_bindable_string value) in
      Some (if text_like then format [table_column; "::text ILIKE "; placeholder]
            else format [table_column; " ILIKE "; placeholder], args)
  | FilterOperator.In =>
      let '(placeholders, args) := bind_each D type_cast args (to_bindable_strings value) in
      Some (format [table_column; " IN ("; join ", " placeholders; ")"], args)
  | FilterOperator.NotIn =>
      let '(placeholders, args) := bind_each D type_cast args (to_bindable_strings value) in
      Some (format [table_column; " NOT IN ("; join ", " placeholders; ")"], args)
  | FilterOperator.IsNull => Some (format [table_column; " IS NULL"], args)
  | FilterOperator.IsNotNull => Some (format [table_column; " IS NOT NULL"], args)
  | FilterOperator.Between =>
      match to_bindable_strings value with
      | v0 :: v1 :: _ =>
          let '(placeholder1, args) := bind_one D args v0 in
          let '(placeholder2, args) := bind_one D args v1 in
          Some (format [table_column; " BETWEEN "; placeholder1; type_cast; " AND ";
                        placeholder2; type_cast], args)
      | _ => None
      end
  | FilterOperator.Contains =>
      let '(placeholder, args) := bind_one D args (to_bindable_string value) in
      Some (format [table_column; " @> "; placeholder; type_cast], args)
  end.

(** The column resolution at the top of the loop body of
    [QueryBuilder::with_filters]: a computed property activates its joins
    and gives its expression and declared type; a real column must be
    safe ([continue] otherwise) and gives its quoted name and its
    [field_meta] type ([Unknown] when absent). *)
Definition resolve_filter_column (b : QueryBuilder) (field : string)
    : option (QueryBuilder * string * FieldType) :=
  match computed_properties b !! field with
  | Some prop => Some (activate_joins b prop, expression prop, cp_field_type prop)
  | None =>
      if negb (is_column_safe b field) then None
      else Some (b, format_column b field, default FieldType.Unknown (field_meta b !! field))
  end.

(** [let effective_field_type = if field_type == FieldType::Unknown { .. }] *)
Definition effective_field_type (field_type : FieldType) (v : FilterValue) : FieldType :=
  if decide (field_type = FieldType.Unknown) then to_field_type v else field_type.

(** The loop body of [QueryBuilder::with_filters] for one filter. *)
Definition apply_filter (b : QueryBuilder) (filter : Filter) : QueryBuilder :=
  match resolve_filter_column b (field filter) with
  | None => b
  | Some (b, table_column, field_type) =>
      let effective_field_type := effective_field_type field_type (value filter) in
      let type_cast := type_cast (dialect b) effective_field_type in
      match filter_condition (dialect b) (arguments b) (operator filter) table_column
              effective_field_type type_cast (value filter) with
      | None => b
      | Some (condition, args) =>
          set_state b ((conditions b ++ [condition])%list) args (active_joins b)
      end
  end.

(** [QueryBuilder::with_filters] *)
Definition with_filters (b : QueryBuilder) (params : QueryParams) : QueryBuilder :=
  fold_left apply_filter (filters params) b.

(** [QueryBuilder::with_table_prefix] *)
Definition with_table_prefix (b : QueryBuilder) (prefix : string) : QueryBuilder :=
  mkQueryBuilder (conditions b) (arguments b) (mappers b) (valid_columns b) (field_meta b)
    (protection b) (protection_enabled b) (column_validation_enabled b) (dialect b)
    (computed_properties b) (active_joins b) (Some prefix).

(** [QueryBuilder::disable_column_validation] *)
Definition disable_column_validation (b : QueryBuilder) : QueryBuilder :=
  mkQueryBuilder (conditions b) (arguments b) (mappers b) (valid_columns b) (field_meta b)
    (protection b) (protection_enabled b) false (dialect b)
    (computed_properties b) (active_joins b) (table_prefix b).

(** [QueryBuilder::map_column] *)
Definition map_column (b : QueryBuilder) (column : string) (mapper : Mapper) : QueryBuilder :=
  mkQueryBuilder (conditions b) (arguments b) (<[column := mapper]> (mappers b)) (valid_columns b)
    (field_meta b) (protection b) (protection_enabled b) (column_validation_enabled b) (dialect b)
    (computed_properties b) (active_joins b) (table_prefix b).

(** [QueryBuilder::new] ([postgres_query_builder.rs],
    [sqlite_query_builder.rs]): [valid_columns] are the keys of the
    [field_meta] [HashMap] in its iteration order, which is the argument
    [keys] here. *)
Definition QueryBuilder_new (D : QueryDialect) (default_protection : ColumnProtection)
    (field_meta : gmap string FieldType) (keys : list string) : QueryBuilder :=
  mkQueryBuilder [] [] ∅ keys field_meta (Some default_protection) true true D ∅ [] None.

(** [QueryBuilder::build]: the conditions, the arguments and the joins. *)
Definition build (b : QueryBuilder) : list string * list string * list string :=
  (conditions b, arguments b, active_joins b).

(** [build_query_with_safe_defaults] ([examples/query_builder_examples.rs]),
    the function [PaginatedQueryBuilder::new_with_defaults] configures for
    Postgres: a fresh builder, the [base_query] prefix, search, filters. *)
Definition build_query_with_safe_defaults (D : QueryDialect) (default_protection : ColumnProtection)
    (field_meta : gmap string FieldType) (keys : list string) (params : QueryParams)
    : list string * list string * list string :=
  build (with_filters (with_search (with_table_prefix
           (QueryBuilder_new D default_protection field_meta keys) "base_query") params) params).

(** A sequence of [with_search] / [with_filters] calls on one builder. *)
Inductive BuilderCall :=
| SearchCall (params : QueryParams)
| FiltersCall (params : QueryParams).

Definition run_call (b : QueryBuilder) (call : BuilderCall) : QueryBuilder :=
  match call with
  | SearchCall params => with_search b params
  | FiltersCall params => with_filters b params
  end.

Definition run_calls (b : QueryBuilder) (calls : list BuilderCall) : QueryBuilder :=
  fold_left run_call calls b.

(* ------------------------------------------------------------------ *)
(** ** [PaginatedQueryBuilder] *)

(** [i64] wrap-around (two's complement, as a release build computes). *)
Definition i64_wrap (z : Z) : Z := ((z + 2 ^ 63) mod 2 ^ 64 - 2 ^ 63)%Z.

(** [let available_pages = match count { 0 => 0, _ => (count +
    pagination_arguments.page_size - 1) / pagination_arguments.page_size }];
    Rust's [/] on [i64] truncates toward zero ([Z.quot]). *)
Definition available_pages (count page_size : Z) : Z :=
  match count with
  | Z0 => 0
  | _ => Z.quot (i64_wrap (i64_wrap (count + page_size) - 1)) page_size
  end.

(** The response of [fetch_paginated]. *)
Record PaginatedResponse (T : Type) := mkPaginatedResponse {
  records : list T;
  resp_pagination : option QueryPaginationParams;
  total : option Z;
  total_pages : option Z;
}.
Arguments records {T}. Arguments resp_pagination {T}.
Arguments total {T}. Arguments total_pages {T}.

(** The configured [build_query_fn]: a [Fn(&QueryParams) -> (Vec<String>,
    Arguments)] closure. A [Fn + Send + Sync] closure may carry interior
    state (an atomic, a mutex); it is made explicit as [S]. *)
Definition QueryBuilderFn (S : Type) := S -> QueryParams -> (list string * list string) * S.

(** [build_where_clause] *)
Definition build_where_clause (conds : list string) : string :=
  if is_empty conds then EmptyString else " WHERE " ++ join " AND " conds.

(** [PaginatedQueryBuilder::fetch_paginated] (Postgres and SQLite share
    this shape): the database answers the count query with [db_count] and
    the page query with [db_rows]. The result also returns the closure's
    state and the two statements issued with their arguments. *)
Definition fetch_paginated {S T : Type} (build_query_fn : QueryBuilderFn S) (st : S)
    (base_sql order_limit : string) (params : QueryParams) (totals_count_enabled : bool)
    (db_count : string -> list string -> Z) (db_rows : string -> list string -> list T)
    : PaginatedResponse T * S * list (string * list string) :=
  let '((conds, main_arguments), st) := build_query_fn st params in
  let where_clause := build_where_clause conds in
  let count_sql := base_sql ++ " SELECT COUNT(*) FROM base_query" ++ where_clause in
  let main_sql := base_sql ++ " SELECT * FROM base_query" ++ where_clause ++ order_limit in
  if totals_count_enabled then
    let '((_, count_arguments), st) := build_query_fn st params in
    let count := db_count count_sql count_arguments in
    let pages := available_pages count (page_size (pagination params)) in
    (mkPaginatedResponse T (db_rows main_sql main_arguments) (Some (pagination params))
       (Some count) (Some pages), st,
     [(count_sql, count_arguments); (main_sql, main_arguments)])
  else
    (mkPaginatedResponse T (db_rows main_sql main_arguments) None None None, st,
     [(main_sql, main_arguments)]).

(* ------------------------------------------------------------------ *)
(** ** Reading placeholder ordinals back from SQL text

    To speak about "the placeholder ordinal written into a condition" for
    the numbered ([$n]) dialect, the condition text is scanned: a [$]
    followed by decimal digits outside a double-quoted identifier is a
    placeholder with that ordinal. *)
Inductive scan_state := Out | Quoted | Dollar | Num (acc : nat).

Definition scan_out (c : ascii) : scan_state :=
  if Ascii.eqb c "$"%char then Dollar else if Ascii.eqb c dquote then Quoted else Out.

Definition scan_step (st : scan_state) (c : ascii) : list nat * scan_state :=
  match st with
  | Out => ([], scan_out c)
  | Quoted => ([], if Ascii.eqb c dquote then Out else Quoted)
  | Dollar => if is_digit c then ([], Num (digit_value c)) else ([], scan_out c)
  | Num acc =>
      if is_digit c then ([], Num (10 * acc + digit_value c)) else ([acc], scan_out c)
  end.

Fixpoint scan (st : scan_state) (s : string) : list nat * scan_state :=
  match s with
  | EmptyString => ([], st)
  | String c s' =>
      let '(e1, st1) := scan_step st c in
      let '(e2, st2) := scan st1 s' in
      ((e1 ++ e2)%list, st2)
  end.

Definition flush (st : scan_state) : list nat :=
  match st with Num acc => [acc] | _ => [] end.

Definition placeholder_ordinals (s : string) : list nat :=
  let '(e, st) := scan Out s in (e ++ flush st)%list.

(** Adjacent repetitions collapsed: a search condition names its one
    ordinal once per column. *)
Fixpoint squash (l : list nat) : list nat :=
  match l with
  | [] => []
  | x :: l' =>
      match l' with
      | [] => [x]
      | y :: _ => if Nat.eqb x y then squash l' else x :: squash l'
      end
  end.

(** Conditions and argument groups in lockstep: condition [i] names
    exactly the ordinals of the arguments of group [i], in order, and
    the groups are consecutive in the argument list. *)
Fixpoint lockstep_from (off : nat) (conds : list string) (groups : list (list string)) : Prop :=
  match conds, groups with
  | [], [] => True
  | c :: cs, g :: gs =>
      squash (placeholder_ordinals c) = seq (S off) (length g)
      /\ lockstep_from (off + length g) cs gs
  | _, _ => False
  end.

(** SQL text without placeholders of its own, leaving the scanner outside
    any quoted identifier. *)
Definition neutral (s : string) : Prop := scan Out s = ([], Out).

(** Text that does not start with a digit: a placeholder before it ends
    where the text begins. *)
Definition nondigit_start (s : string) : bool :=
  match s with EmptyString => true | String c _ => negb (is_digit c) end.

(** [x] contributes the ordinals [o], whatever non-digit text follows. *)
Definition ords_spec (x : string) (o : list nat) : Prop :=
  forall r, nondigit_start r = true -> placeholder_ordinals (x ++ r) = (o ++ placeholder_ordinals r)%list.

(** A builder of the numbered ([$n]) dialect whose computed-property
    expressions and mapper column texts hold no placeholder of their own,
    and whose mappers leave the placeholder to the builder (return
    [None] as the second component). *)
Definition pg_builder_ok (b : QueryBuilder) : Prop :=
  dialect b = PostgresDialect
  /\ (forall name prop, computed_properties b !! name = Some prop -> neutral (expression prop))
  /\ (forall name (m : Mapper), mappers b !! name = Some m ->
        forall column search, neutral (fst (m column search)) /\ snd (m column search) = None).

(** Conditions and arguments in lockstep from an empty start. *)
Definition in_lockstep (b : QueryBuilder) : Prop :=
  exists groups, arguments b = concat groups /\ lockstep_from 0 (conditions b) groups.

(** The column text and the column type a filter on [field] resolves to
    (the pair [resolve_filter_column] returns beside the builder). *)
Definition filter_target (b : QueryBuilder) (field : string) : string * FieldType :=
  match computed_properties b !! field with
  | Some prop => (expression prop, cp_field_type prop)
  | None => (format_column b field, default FieldType.Unknown (field_meta b !! field))
  end.

(** The SQL comparison operator of the single-value comparison filters. *)
Definition comparison_operator_sql (op : FilterOperator) : string :=
  match op with
  | FilterOperator.Eq => " = "
  | FilterOperator.Ne => " != "
  | FilterOperator.Gt => " > "
  | FilterOperator.Lt => " < "
  | FilterOperator.Gte => " >= "
  | FilterOperator.Lte => " <= "
  | _ => EmptyString
  end.

(** The type a filter value carries, in the words of the spec: a scalar
    its own type, an array the type of its first element, an empty array
    or [Null] no known type. *)
Fixpoint value_inferred_type (v : FilterValue) : FieldType :=
  match v with
  | FilterValue.Array (v0 :: _) => value_inferred_type v0
  | FilterValue.Array [] => FieldType.Unknown
  | FilterValue.Null => FieldType.Unknown
  | FilterValue.String _ => FieldType.String
  | FilterValue.Uuid _ => FieldType.Uuid
  | FilterValue.Int _ => FieldType.Int
  | FilterValue.Float _ => FieldType.Float
  | FilterValue.Bool _ => FieldType.Bool
  | FilterValue.DateTime _ => FieldType.DateTime
  | FilterValue.Date _ => FieldType.Date
  | FilterValue.Time _ => FieldType.Time
  end.

(** The effective field type in the words of the spec: the column's type
    when known, else the value's own type. *)
Definition spec_effective_type (column_type : FieldType) (v : FilterValue) : FieldType :=
  match column_type with
  | FieldType.Unknown => value_inferred_type v
  | _ => column_type
  end.

(** A parameter set with only filters. *)
Definition filter_params (fs : list Filter) : QueryParams :=
  mkQueryParams (mkQueryPaginationParams 1 10) (mkQuerySortParams Descending "created_at")
    (mkQuerySearchParams None None) fs.

(** A parameter set with only a search. *)
Definition search_params_of (term : option string) (columns : option (list string)) : QueryParams :=
  mkQueryParams (mkQueryPaginationParams 1 10) (mkQuerySortParams Descending "created_at")
    (mkQuerySearchParams term columns) [].

(** The builder of a model [{ id: i64, name: String, amount: Option<f64> }]
    on Postgres ([amount] serializes to [null], hence [Unknown]). *)
Definition test_meta : gmap string FieldType :=
  <["id" := FieldType.Int]> (<["name" := FieldType.String]> (<["amount" := FieldType.Unknown]> ∅)).

Definition test_builder : QueryBuilder :=
  QueryBuilder_new PostgresDialect (mkColumnProtection COLUMN_PROTECTION_BLOCKED_POSTGRES)
    test_meta ["id"; "name"; "amount"].

(** A mapper that supplies its own placeholder, as the [Option<String>]
    of [map_column]'s signature allows. *)
Definition own_placeholder_mapper : Mapper :=
  fun column _ => (quote_identifier PostgresDialect column, Some "$7").

Definition mapped_builder : QueryBuilder :=
  map_column test_builder "name" own_placeholder_mapper.

(** The same model on SQLite, as [QueryBuilder::<T, Sqlite>::new] builds it. *)
Definition sqlite_test_builder : QueryBuilder :=
  QueryBuilder_new SqliteDialect (mkColumnProtection COLUMN_PROTECTION_BLOCKED_SQLITE)
    test_meta ["id"; "name"; "amount"].

(** A search, then two filters. *)
Definition sample_calls : list BuilderCall :=
  [SearchCall (search_params_of (Some "jo") (Some ["name"; "id"]));
   FiltersCall (filter_params
     [mkFilter "id" FilterOperator.Between (FilterValue.Array [FilterValue.Int 1; FilterValue.Int 9]);
      mkFilter "name" FilterOperator.In (FilterValue.Array [FilterValue.String "a"; FilterValue.String "b"])])].

(** A stateless configured function. *)
Definition stateless (fn : QueryParams -> list string * list string) : QueryBuilderFn unit :=
  fun st params => (fn params, st).

(** The default function [PaginatedQueryBuilder::new_with_defaults]
    configures, on the model of [test_builder] with the columns listed
    in the order [keys]. *)
Definition default_build_fn (keys : list string) (params : QueryParams) : list string * list string :=
  let '(conds, args, _) :=
    build_query_with_safe_defaults PostgresDialect
      (mkColumnProtection COLUMN_PROTECTION_BLOCKED_POSTGRES) test_meta keys params in
  (conds, args).

(** A configured closure with a call counter (an [AtomicUsize] captured
    by the [Fn] closure): from its second call on it adds a condition
    with one bound value. *)
Definition counting_build_fn (inner : QueryParams -> list string * list string) : QueryBuilderFn nat :=
  fun calls params =>
    let '(conds, args) := inner params in
    (if Nat.eqb calls 0 then (conds, args)
     else ((conds ++ [format [quote_identifier PostgresDialect "seen"; " = ";
                               placeholder PostgresDialect (length args + 1)]])%list,
           (args ++ ["true"])%list),
     S calls).

(** The builder with its [valid_columns] listed differently (the keys of
    the [field_meta] map in another iteration order). *)
Definition with_valid_columns (b : QueryBuilder) (vs : list string) : QueryBuilder :=
  mkQueryBuilder (conditions b) (arguments b) (mappers b) vs (field_meta b) (protection b)
    (protection_enabled b) (column_validation_enabled b) (dialect b)
    (computed_properties b) (active_joins b) (table_prefix b).

(* ------------------------------------------------------------------ *)
(** ** More of [impl QueryBuilder] *)

(** [QueryBuilder::has_column] *)
Definition has_column (b : QueryBuilder) (column : string) : bool :=
  contains (valid_columns b) column
  || match computed_properties b !! column with Some _ => true | None => false end.


(** [QueryBuilder::with_raw_condition] *)
Definition with_raw_condition (b : QueryBuilder) (condition : string) : QueryBuilder :=
  set_state b ((conditions b ++ [condition])%list) (arguments b) (active_joins b).

(** [QueryBuilder::disable_protection] *)
Definition disable_protection (b : QueryBuilder) : QueryBuilder :=
  mkQueryBuilder (conditions b) (arguments b) (mappers b) (valid_columns b) (field_meta b)
    (protection b) false (column_validation_enabled b) (dialect b)
    (computed_properties b) (active_joins b) (table_prefix b).

(** [QueryBuilder::enable_protection] *)
Definition enable_protection (b : QueryBuilder) : QueryBuilder :=
  mkQueryBuilder (conditions b) (arguments b) (mappers b) (valid_columns b) (field_meta b)
    (protection b) true (column_validation_enabled b) (dialect b)
    (computed_properties b) (active_joins b) (table_prefix b).

(** [QueryBuilder::enable_column_validation] *)
Definition enable_column_validation (b : QueryBuilder) : QueryBuilder :=
  mkQueryBuilder (conditions b) (arguments b) (mappers b) (valid_columns b) (field_meta b)
    (protection b) (protection_enabled b) true (dialect b)
    (computed_properties b) (active_joins b) (table_prefix b).

(** [models_internal.rs]: [struct ComputedPropertyBuilder]; its fields
    [joins] and [field_type] are [cpb_joins] and [cpb_field_type] here. *)
Record ComputedPropertyBuilder := mkComputedPropertyBuilder {
  cpb_joins : list string;
  cpb_field_type : FieldType;
}.

(** [ComputedPropertyBuilder::new], that is its [Default] *)
Definition ComputedPropertyBuilder_new : ComputedPropertyBuilder :=
  mkComputedPropertyBuilder [] FieldType.String.

(** [ComputedPropertyBuilder::with_join] *)
Definition with_join (cp : ComputedPropertyBuilder) (clause : string) : ComputedPropertyBuilder :=
  mkComputedPropertyBuilder (cpb_joins cp ++ [clause])%list (cpb_field_type cp).

(** [ComputedPropertyBuilder::with_field_type] *)
Definition with_field_type (cp : ComputedPropertyBuilder) (ft : FieldType) : ComputedPropertyBuilder :=
  mkComputedPropertyBuilder (cpb_joins cp) ft.

(** The closure [F: FnOnce(&mut ComputedPropertyBuilder) -> &str]: the
    builder it leaves behind and the expression it returns. *)
Definition ComputedPropertyFn := ComputedPropertyBuilder -> ComputedPropertyBuilder * string.

(** [QueryBuilder::with_computed_property] *)
Definition with_computed_property (b : QueryBuilder) (name : string) (f : ComputedPropertyFn)
    : QueryBuilder :=
  let '(builder, expression) := f ComputedPropertyBuilder_new in
  mkQueryBuilder (conditions b) (arguments b) (mappers b) (valid_columns b) (field_meta b)
    (protection b) (protection_enabled b) (column_validation_enabled b) (dialect b)
    (<[name := mkComputedProperty expression (cpb_joins builder) (cpb_field_type builder)]>
       (computed_properties b))
    (active_joins b) (table_prefix b).

(** A computed property with a join and a declared type, as in the
    crate's documentation of [with_computed_property]. *)
Definition counterparty_name : ComputedPropertyFn :=
  fun cp => (with_field_type (with_join cp "LEFT JOIN counterparty ON counterparty.id = base_query.counterparty_id")
               FieldType.String, "counterparty.legal_name").

(* ------------------------------------------------------------------ *)
(** ** [internal_utils.rs], [FilterValue::to_sql_string] and the clauses
    of [PaginatedQueryBuilder] *)

(** [str::split] on a one-byte character (['.'] never occurs inside a
    multi-byte UTF-8 sequence): the pieces between its occurrences, at
    least one. *)
Fixpoint split_char (sep : ascii) (s : string) : list string :=
  match s with
  | EmptyString => [EmptyString]
  | String c s' =>
      let rest := split_char sep s' in
      if Ascii.eqb c sep then EmptyString :: rest
      else match rest with
           | [] => [String c EmptyString]
           | p :: ps => String c p :: ps
           end
  end.

(** [str::replace] of a one-byte character by a string. *)
Fixpoint replace_char (c : ascii) (rep : string) (s : string) : string :=
  match s with
  | EmptyString => EmptyString
  | String c' s' =>
      if Ascii.eqb c' c then rep ++ replace_char c rep s' else String c' (replace_char c rep s')
  end.

(** [internal_utils::quote_identifier]: each ['.']-separated part quoted
    on its own (this is the function [build_order_clause] uses, not the
    dialect's). *)
Module internal_utils.
(** The closure given to [map]: the part between double quotes, with
    its double quotes doubled. *)
Definition quote_part (part : string) : string :=
  format [String dquote EmptyString; double_quotes part; String dquote EmptyString].

Definition quote_identifier (identifier : string) : string :=
  join "." (map quote_part (split_char "." identifier)).
End internal_utils.

(** [internal_utils::extract_digits_from_strings]: the ASCII digits of
    the text ([char::is_ascii_digit]; the bytes of a multi-byte UTF-8
    character are never ASCII digits). *)
Fixpoint extract_digits_from_strings (val : string) : string :=
  match val with
  | EmptyString => EmptyString
  | String c s => if is_digit c then String c (extract_digits_from_strings s)
                  else extract_digits_from_strings s
  end.

(** [FilterValue::to_sql_string] *)
Fixpoint to_sql_string (v : FilterValue) : string :=
  match v with
  | FilterValue.String s => format ["'"; replace_char "'" "''" s; "'"]
  | FilterValue.Int i => i64_to_string i
  | FilterValue.Float f => f
  | FilterValue.Bool b => if b then "TRUE" else "FALSE"
  | FilterValue.DateTime dt => format ["'"; dt; "'"]
  | FilterValue.Date d => format ["'"; d; "'"]
  | FilterValue.Time t => format ["'"; t; "'"]
  | FilterValue.Array arr => format ["("; join ", " (map to_sql_string arr); ")"]
  | FilterValue.Null => "NULL"
  | FilterValue.Uuid uuid => format ["'"; uuid; "'"]
  end.

(** [PaginatedQueryBuilder::build_base_query] *)
Definition build_base_query (sql : string) : string :=
  format ["WITH base_query AS ("; sql; ")"].

(** [PaginatedQueryBuilder::build_order_clause] *)
Definition build_order_clause (params : QueryParams) : string :=
  let order := match sort_direction (sort params) with
               | Ascending => "ASC"
               | Descending => "DESC"
               end in
  let column_name := internal_utils.quote_identifier (sort_column (sort params)) in
  format [" ORDER BY "; column_name; " "; order].

(** [PaginatedQueryBuilder::build_limit_offset_clause]: [(page - 1) *
    page_size] in [i64], wrapping as [available_pages] does. *)
Definition build_limit_offset_clause (params : QueryParams) : string :=
  let pagination := pagination params in
  let offset := i64_wrap (i64_wrap (page pagination - 1) * page_size pagination) in
  format [" LIMIT "; i64_to_string (page_size pagination); " OFFSET "; i64_to_string offset].

(** Reading SQL text back. [read_quoted q s]: the body of a literal or
    identifier opened by [q] before [s], a doubled [q] standing for one,
    and the text after the closing [q]. *)
Fixpoint read_quoted (q : ascii) (s : string) : option (string * string) :=
  match s with
  | EmptyString => None
  | String c s' =>
      if Ascii.eqb c q then
        match s' with
        | String c2 s'' =>
            if Ascii.eqb c2 q then
              match read_quoted q s'' with
              | Some (body, rest) => Some (String q body, rest)
              | None => None
              end
            else Some (EmptyString, s')
        | EmptyString => Some (EmptyString, EmptyString)
        end
      else
        match read_quoted q s' with
        | Some (body, rest) => Some (String c body, rest)
        | None => None
        end
  end.

(** A literal or identifier opened by [q] at the start of the text: its
    body and the text after it. *)
Definition read_literal (q : ascii) (s : string) : option (string * string) :=
  match s with
  | String c s' => if Ascii.eqb c q then read_quoted q s' else None
  | EmptyString => None
  end.

(** Whether the text starts with the character [c]. *)
Definition starts_with_char (c : ascii) (s : string) : bool :=
  match s with
  | String c' _ => Ascii.eqb c' c
  | EmptyString => false
  end.

(** A ['.']-separated path of double-quoted identifiers at the start of
    the text, and the text after it. *)
Fixpoint read_ident_path (fuel : nat) (s : string) : option (list string * string) :=
  match fuel with
  | O => None
  | S fuel' =>
      match s with
      | String c s' =>
          if Ascii.eqb c dquote then
            match read_quoted dquote s' with
            | Some (part, String c2 rest) =>
                if Ascii.eqb c2 "." then
                  match read_ident_path fuel' rest with
                  | Some (parts, rest') => Some (part :: parts, rest')
                  | None => None
                  end
                else Some ([part], String c2 rest)
            | Some (part, EmptyString) => Some ([part], EmptyString)
            | None => None
            end
          else None
      | EmptyString => None
      end
  end.

(** [s] with the prefix [p] removed. *)
Fixpoint strip_prefix (p s : string) : option string :=
  match p, s with
  | EmptyString, _ => Some s
  | String a p', String b s' => if Ascii.eqb a b then strip_prefix p' s' else None
  | String _ _, EmptyString => None
  end.

(** An [ORDER BY] clause read back: the identifier path and the direction. *)
Definition read_order_clause (s : string) : option (list string * QuerySortDirection) :=
  match strip_prefix " ORDER BY " s with
  | None => None
  | Some s1 =>
      match read_ident_path (String.length s1) s1 with
      | Some (parts, rest) =>
          if String.eqb rest " ASC" then Some (parts, Ascending)
          else if String.eqb rest " DESC" then Some (parts, Descending)
          else None
      | None => None
      end
  end.

(** Whether the text contains the character [c]. *)
Fixpoint has_char (c : ascii) (s : string) : bool :=
  match s with
  | EmptyString => false
  | String c' s' => Ascii.eqb c' c || has_char c s'
  end.

(** Parameters with the given page, page size and sort. *)
Definition page_params (pg ps : Z) (dir : QuerySortDirection) (column : string) : QueryParams :=
  mkQueryParams (mkQueryPaginationParams pg ps) (mkQuerySortParams dir column)
    (mkQuerySearchParams None None) [].

(* ------------------------------------------------------------------ *)
(** ** [filter_deserialize.rs] *)

(** [str::trim] returning text: the characters of [trim_chars] encoded
    back to UTF-8 (for the valid UTF-8 of a Rust [str], the trimmed
    slice). *)
Definition utf8_encode_char (c : Z) : list Z :=
  if (c <? 128)%Z then [c]
  else if (c <? 2048)%Z then [192 + c / 64; 128 + c mod 64]%Z
  else if (c <? 65536)%Z then [224 + c / 4096; 128 + (c / 64) mod 64; 128 + c mod 64]%Z
  else [240 + c / 262144; 128 + (c / 4096) mod 64; 128 + (c / 64) mod 64; 128 + c mod 64]%Z.

Definition string_of_bytes (bs : list Z) : string :=
  fold_right (fun b s => String (ascii_of_nat (Z.to_nat b)) s) EmptyString bs.

Definition str_trim (s : string) : string :=
  string_of_bytes (concat (map utf8_encode_char (trim_chars (chars s)))).


(** [parse_operator] *)
Definition parse_operator (s : string) : option FilterOperator :=
  if String.eqb s "Eq" then Some FilterOperator.Eq
  else if String.eqb s "Ne" then Some FilterOperator.Ne
  else if String.eqb s "Gt" then Some FilterOperator.Gt
  else if String.eqb s "Lt" then Some FilterOperator.Lt
  else if String.eqb s "Gte" then Some FilterOperator.Gte
  else if String.eqb s "Lte" then Some FilterOperator.Lte
  else if String.eqb s "Like" then Some FilterOperator.Like
  else if String.eqb s "ILike" then Some FilterOperator.ILike
  else if String.eqb s "In" then Some FilterOperator.In
  else if String.eqb s "NotIn" then Some FilterOperator.NotIn
  else if String.eqb s "IsNull" then Some FilterOperator.IsNull
  else if String.eqb s "IsNotNull" then Some FilterOperator.IsNotNull
  else if String.eqb s "Between" then Some FilterOperator.Between
  else if String.eqb s "Contains" then Some FilterOperator.Contains
  else None.

(** The name of an operator variant, as the derived [Serialize] of
    [FilterOperator] writes it. *)
Definition operator_name (op : FilterOperator) : string :=
  match op with
  | FilterOperator.Eq => "Eq" | FilterOperator.Ne => "Ne" | FilterOperator.Gt => "Gt"
  | FilterOperator.Lt => "Lt" | FilterOperator.Gte => "Gte" | FilterOperator.Lte => "Lte"
  | FilterOperator.Like => "Like" | FilterOperator.ILike => "ILike" | FilterOperator.In => "In"
  | FilterOperator.NotIn => "NotIn" | FilterOperator.IsNull => "IsNull"
  | FilterOperator.IsNotNull => "IsNotNull" | FilterOperator.Between => "Between"
  | FilterOperator.Contains => "Contains"
  end.


Section FilterDeserialize.

(** The parsers [parse_filter_value] tries after the boolean check (a
    [uuid] UUID, the [chrono] RFC 3339 and ISO 8601 date-times, dates and
    times, [i64], [f64], then the [String] fallback) are library parsers;
    they are this parameter. *)
Variable parse_typed : string -> FilterValue.

(** [parse_filter_value]. Comparing [to_lowercase] with ["true"] and
    ["false"] only involves ASCII letters: no other character lowercases
    to one of them. *)
Definition parse_filter_value (s : string) : FilterValue :=
  if String.eqb s EmptyString then FilterValue.Null
  else
    let lower := to_lowercase s in
    if String.eqb lower "true" then FilterValue.Bool true
    else if String.eqb lower "false" then FilterValue.Bool false
    else parse_typed s.

(** [parse_array_values] *)
Definition parse_array_values (s : string) : list FilterValue :=
  map (fun v => parse_filter_value (str_trim v)) (split_char "," s).

(** [let value = match operator { .. }] in [filters_deserialize] *)
Definition filter_value_of (operator : FilterOperator) (value_str : string) : FilterValue :=
  match operator with
  | FilterOperator.IsNull | FilterOperator.IsNotNull => FilterValue.Null
  | FilterOperator.In | FilterOperator.NotIn | FilterOperator.Between =>
      FilterValue.Array (parse_array_values value_str)
  | _ => parse_filter_value value_str
  end.




End FilterDeserialize.

(** Count of a character in a text. *)
Fixpoint count_char (c : ascii) (s : string) : nat :=
  match s with
  | EmptyString => O
  | String c' s' => (if Ascii.eqb c' c then 1 else 0) + count_char c s'
  end.

(** The active joins only grow, and stay free of duplicates. *)
Definition joins_grow (a a' : list string) : Prop :=
  (exists l, a' = (a ++ l)%list) /\ (NoDup a -> NoDup a').

(* ================================================================== *)
(** * Properties *)

(** ** Basic facts about the builder *)

Lemma set_state_conditions b cs args js : conditions (set_state b cs args js) = cs.
Proof. reflexivity. Qed.

Lemma set_state_arguments b cs args js : arguments (set_state b cs args js) = args.
Proof. reflexivity. Qed.

Lemma activate_joins_conditions b prop : conditions (activate_joins b prop) = conditions b.
Proof. reflexivity. Qed.

Lemma activate_joins_arguments b prop : arguments (activate_joins b prop) = arguments b.
Proof. reflexivity. Qed.

Lemma activate_joins_dialect b prop : dialect (activate_joins b prop) = dialect b.
Proof. reflexivity. Qed.

(** A safe column resolves to its [filter_target], on a builder whose
    conditions, arguments and dialect are those of [b]. *)
Lemma resolve_safe (b : QueryBuilder) (fld : string) :
  is_column_safe b fld = true ->
  exists b', resolve_filter_column b fld = Some (b', fst (filter_target b fld), snd (filter_target b fld))
    /\ conditions b' = conditions b /\ arguments b' = arguments b /\ dialect b' = dialect b.
Proof.
  intros Hsafe. unfold resolve_filter_column, filter_target.
  destruct (computed_properties b !! fld) as [prop|] eqn:Hc.
  - eexists. split; [reflexivity|]. auto.
  - rewrite Hsafe. simpl. eexists. split; [reflexivity|]. auto.
Qed.

Lemma with_filters_single (b : QueryBuilder) (params : QueryParams) (f : Filter) :
  filters params = [f] -> with_filters b params = apply_filter b f.
Proof. intros Hf. unfold with_filters. rewrite Hf. reflexivity. Qed.

(** The loop body on a safe column, in terms of [filter_condition]. *)
Lemma apply_filter_safe (b : QueryBuilder) (f : Filter) :
  is_column_safe b (field f) = true ->
  let '(tc, ft) := filter_target b (field f) in
  let eff := effective_field_type ft (value f) in
  match filter_condition (dialect b) (arguments b) (operator f) tc eff
          (type_cast (dialect b) eff) (value f) with
  | Some (c, args) =>
      conditions (apply_filter b f) = (conditions b ++ [c])%list
      /\ arguments (apply_filter b f) = args
  | None =>
      conditions (apply_filter b f) = conditions b
      /\ arguments (apply_filter b f) = arguments b
  end.
Proof.
  intros Hsafe. destruct (resolve_safe b (field f) Hsafe) as (b' & Hr & Hc & Ha & Hd).
  destruct (filter_target b (field f)) as [tc ft]. simpl in Hr.
  unfold apply_filter. rewrite Hr. rewrite Hd, Ha.
  destruct (filter_condition _ _ _ _ _ _ _) as [[c args]|]; simpl; auto.
  rewrite Hc. auto.
Qed.

(* ------------------------------------------------------------------ *)
(** ** Search with a blank term or no columns *)

(** C9: when the search term is absent, empty or only whitespace, or the
    search-column list is absent or empty, [with_search] adds no
    condition and consumes no argument. *)
Theorem with_search_blank_noop (b : QueryBuilder) (params : QueryParams)
  (Hblank : search (search_params params) = None
            \/ (exists s, search (search_params params) = Some s /\ trim_is_empty s = true)
            \/ search_columns (search_params params) = None
            \/ search_columns (search_params params) = Some []) :
  conditions (with_search b params) = conditions b
  /\ arguments (with_search b params) = arguments b.
Proof.
  enough (with_search b params = b) as -> by auto.
  unfold with_search.
  destruct (search (search_params params)) as [s|] eqn:Hs; [|reflexivity].
  destruct (search_columns (search_params params)) as [cols|] eqn:Hcols; [|reflexivity].
  destruct Hblank as [Hn|[[s' [Hs' Ht]]|[Hn|Hn]]]; try congruence.
  - injection Hs' as <-. rewrite Ht. simpl.
    rewrite andb_false_r. reflexivity.
  - injection Hn as ->. reflexivity.
Qed.

Lemma with_search_blank_noop_witness :
  conditions (with_search test_builder (search_params_of (Some "  ") (Some ["name"])))
    = conditions test_builder
  /\ arguments (with_search test_builder (search_params_of (Some "  ") (Some ["name"])))
    = arguments test_builder.
Proof.
  apply with_search_blank_noop. right. left. exists "  ". split; reflexivity.
Defined.

(* ------------------------------------------------------------------ *)
(** ** Between *)

(** C6: a [Between] filter on a safe column with a two-element array adds
    one condition with two placeholders joined by [AND], each followed by
    the effective-type cast, and two arguments; with fewer than two
    elements it changes neither the conditions nor the arguments. *)
Theorem between_filter (b : QueryBuilder) (params : QueryParams) (f : Filter)
  (Hf : filters params = [f])
  (Hop : operator f = FilterOperator.Between)
  (Hsafe : is_column_safe b (field f) = true) :
  let '(tc, ft) := filter_target b (field f) in
  let D := dialect b in
  let cast := type_cast D (effective_field_type ft (value f)) in
  let n := length (arguments b) in
  (forall a0 a1, value f = FilterValue.Array [a0; a1] ->
     conditions (with_filters b params)
       = (conditions b ++ [format [tc; " BETWEEN "; placeholder D (n + 1); cast; " AND ";
                                  placeholder D (n + 2); cast]])%list
     /\ arguments (with_filters b params)
       = (arguments b ++ [to_bindable_string a0; to_bindable_string a1])%list)
  /\ (forall vs, value f = FilterValue.Array vs -> (length vs < 2)%nat ->
       conditions (with_filters b params) = conditions b
       /\ arguments (with_filters b params) = arguments b).
Proof.
  rewrite (with_filters_single b params f Hf).
  pose proof (apply_filter_safe b f Hsafe) as H.
  destruct (filter_target b (field f)) as [tc ft]. rewrite Hop in H. split.
  - intros a0 a1 Hv. rewrite Hv in H |- *. simpl in H.
    destruct H as [-> ->]. rewrite length_app. simpl.
    assert (E : (length (arguments b) + 1 + 1 = length (arguments b) + 2)%nat) by lia.
    rewrite E, <- app_assoc. split; reflexivity.
  - intros vs Hv Hlen. rewrite Hv in H. simpl in H.
    destruct vs as [|v0 [|v1 vs]]; simpl in H, Hlen; try lia; exact H.
Qed.

Lemma between_filter_witness :
  let f := mkFilter "id" FilterOperator.Between
             (FilterValue.Array [FilterValue.Int 1; FilterValue.Int 9]) in
  filters (filter_params [f]) = [f] /\ operator f = FilterOperator.Between
  /\ is_column_safe test_builder (field f) = true
  /\ conditions (with_filters test_builder (filter_params [f]))
     = [format [quote_identifier PostgresDialect "id"; " BETWEEN "; "$1"; "::bigint";
                " AND "; "$2"; "::bigint"]].
Proof.
  intros f.
  pose proof (between_filter test_builder (filter_params [f]) f eq_refl eq_refl eq_refl) as H.
  simpl in H. destruct H as [H _].
  destruct (H (FilterValue.Int 1) (FilterValue.Int 9) eq_refl) as [Hc _].
  split; [reflexivity|]. split; [reflexivity|]. split; [reflexivity|].
  rewrite Hc. vm_compute. reflexivity.
Defined.

(* ------------------------------------------------------------------ *)
(** ** Single-value comparisons *)

(** The cast suffix is empty for string and unknown types in both
    dialects (spec 4.1). *)
Lemma type_cast_string_unknown_empty :
  type_cast PostgresDialect FieldType.String = EmptyString
  /\ type_cast PostgresDialect FieldType.Unknown = EmptyString
  /\ (forall ft, type_cast SqliteDialect ft = EmptyString).
Proof. repeat split. Qed.

(** C4: a filter [Eq], [Ne], [Gt], [Lt], [Gte] or [Lte] on a safe column
    adds one condition [column op placeholder cast] with exactly one
    placeholder, the next ordinal, followed by the dialect's cast for the
    effective type (empty for string and unknown types), and adds exactly
    one argument, the value's bindable string. *)
Theorem comparison_filter (b : QueryBuilder) (params : QueryParams) (f : Filter)
  (Hf : filters params = [f])
  (Hop : In (operator f) [FilterOperator.Eq; FilterOperator.Ne; FilterOperator.Gt;
                          FilterOperator.Lt; FilterOperator.Gte; FilterOperator.Lte])
  (Hsafe : is_column_safe b (field f) = true) :
  let '(tc, ft) := filter_target b (field f) in
  let D := dialect b in
  conditions (with_filters b params)
    = (conditions b ++ [format [tc; comparison_operator_sql (operator f);
                               placeholder D (length (arguments b) + 1);
                               type_cast D (effective_field_type ft (value f))]])%list
  /\ arguments (with_filters b params) = (arguments b ++ [to_bindable_string (value f)])%list
  /\ type_cast PostgresDialect FieldType.String = EmptyString
  /\ type_cast PostgresDialect FieldType.Unknown = EmptyString
  /\ (forall ft', type_cast SqliteDialect ft' = EmptyString).
Proof.
  rewrite (with_filters_single b params f Hf).
  pose proof (apply_filter_safe b f Hsafe) as H.
  destruct (filter_target b (field f)) as [tc ft].
  simpl in Hop.
  destruct Hop as [Hop|[Hop|[Hop|[Hop|[Hop|[Hop|[]]]]]]]; rewrite <- Hop in H |- *;
    simpl in H; destruct H as [-> ->]; repeat split.
Qed.

Lemma comparison_filter_witness :
  let f := mkFilter "id" FilterOperator.Gte (FilterValue.Int 5) in
  filters (filter_params [f]) = [f]
  /\ conditions (with_filters test_builder (filter_params [f]))
     = [format [quote_identifier PostgresDialect "id"; " >= "; "$1"; "::bigint"]]
  /\ arguments (with_filters test_builder (filter_params [f])) = ["5"].
Proof.
  intros f.
  pose proof (comparison_filter test_builder (filter_params [f]) f eq_refl
                ltac:(simpl; tauto) eq_refl) as H.
  simpl in H. destruct H as [Hc [Ha _]].
  split; [reflexivity|]. rewrite Hc, Ha. vm_compute. split; reflexivity.
Defined.

(* ------------------------------------------------------------------ *)
(** ** In / NotIn *)

Lemma bind_each_spec (D : QueryDialect) (cast : string) (args vs : list string) :
  bind_each D cast args vs
  = (map (fun i => format [placeholder D i; cast]) (seq (length args + 1) (length vs)),
     (args ++ vs)%list).
Proof.
  revert args. induction vs as [|v vs IH]; intros args; simpl.
  - rewrite app_nil_r. reflexivity.
  - rewrite IH. rewrite length_app. simpl.
    rewrite <- app_assoc. simpl.
    replace (length args + 1 + 1)%nat with (S (length args + 1)) by lia.
    reflexivity.
Qed.

(** An [In] filter on a safe column: one condition with one cast
    placeholder per array element and one argument per element. *)
Lemma in_filter_shape (b : QueryBuilder) (params : QueryParams) (f : Filter) (vs : list FilterValue)
  (Hf : filters params = [f])
  (Hop : operator f = FilterOperator.In)
  (Hv : value f = FilterValue.Array vs)
  (Hsafe : is_column_safe b (field f) = true) :
  let '(tc, ft) := filter_target b (field f) in
  let D := dialect b in
  let cast := type_cast D (effective_field_type ft (value f)) in
  conditions (with_filters b params)
    = (conditions b ++ [format [tc; " IN (";
         join ", " (map (fun i => format [placeholder D i; cast])
                      (seq (length (arguments b) + 1) (length vs))); ")"]])%list
  /\ arguments (with_filters b params) = (arguments b ++ map to_bindable_string vs)%list.
Proof.
  rewrite (with_filters_single b params f Hf).
  pose proof (apply_filter_safe b f Hsafe) as H.
  destruct (filter_target b (field f)) as [tc ft].
  rewrite Hop in H. simpl in H. rewrite Hv in H |- *. simpl in H.
  rewrite bind_each_spec, length_map in H. exact H.
Qed.

(** C3 (failing input): an [In] filter with an empty array on the safe
    column [id] is not dropped; [with_filters] emits the condition
    [IN ()]. *)
Theorem in_empty_array_emits_condition :
  let f := mkFilter "id" FilterOperator.In (FilterValue.Array []) in
  conditions (with_filters test_builder (filter_params [f]))
    = [quote_identifier PostgresDialect "id" ++ " IN ()"]
  /\ arguments (with_filters test_builder (filter_params [f])) = [].
Proof. vm_compute. split; reflexivity. Qed.

(* ------------------------------------------------------------------ *)
(** ** Effective field type *)

Lemma value_inferred_type_to_field_type (v : FilterValue) :
  value_inferred_type v = to_field_type v.
Proof.
  revert v. fix IH 1. intros v. destruct v as [| | | | | | | |arr|]; try reflexivity.
  all: destruct arr as [|v0 arr]; [reflexivity|]; simpl; apply IH.
Qed.

Lemma effective_field_type_spec (ft : FieldType) (v : FilterValue) :
  effective_field_type ft v = spec_effective_type ft v.
Proof.
  unfold effective_field_type, spec_effective_type.
  destruct ft; try reflexivity. all: simpl; apply value_inferred_type_to_field_type.
Qed.

(** C5: the filter on a safe column is translated with the effective type
    of the spec: the column's type when it is not [Unknown], else the
    type of the value (an array's first element, [Unknown] for an empty
    array or [Null]). *)
Theorem effective_type_fallback (b : QueryBuilder) (params : QueryParams) (f : Filter)
  (Hf : filters params = [f])
  (Hsafe : is_column_safe b (field f) = true) :
  let '(tc, ft) := filter_target b (field f) in
  let eff := spec_effective_type ft (value f) in
  match filter_condition (dialect b) (arguments b) (operator f) tc eff
          (type_cast (dialect b) eff) (value f) with
  | Some (c, args) =>
      conditions (with_filters b params) = (conditions b ++ [c])%list
      /\ arguments (with_filters b params) = args
  | None =>
      conditions (with_filters b params) = conditions b
      /\ arguments (with_filters b params) = arguments b
  end.
Proof.
  rewrite (with_filters_single b params f Hf).
  pose proof (apply_filter_safe b f Hsafe) as H.
  destruct (filter_target b (field f)) as [tc ft].
  rewrite effective_field_type_spec in H. exact H.
Qed.

Lemma effective_type_fallback_witness :
  let f := mkFilter "amount" FilterOperator.Lt (FilterValue.Float "99.99") in
  filters (filter_params [f]) = [f] /\ is_column_safe test_builder (field f) = true
  /\ conditions (with_filters test_builder (filter_params [f]))
     = [format [quote_identifier PostgresDialect "amount"; " < "; "$1"; "::float8"]].
Proof.
  intros f.
  pose proof (effective_type_fallback test_builder (filter_params [f]) f eq_refl eq_refl) as H.
  split; [reflexivity|]. split; [reflexivity|].
  vm_compute in H. vm_compute. exact (proj1 H).
Defined.

(* ------------------------------------------------------------------ *)
(** ** Column safety *)

(** C8: with column validation disabled and the denylist protection
    enabled, a column that is not a computed property is rejected exactly
    when it matches the denylist: a denylisted column is still rejected,
    any other column passes even if the model does not have it. *)
Theorem denylist_survives_disabled_validation (b : QueryBuilder) (p : ColumnProtection)
  (c : string)
  (Hc : computed_properties b !! c = None)
  (Hval : column_validation_enabled b = false)
  (Hprot : protection_enabled b = true)
  (Hp : protection b = Some p) :
  ((exists pat, In pat (blocked p) /\ starts_with (to_lowercase c) (to_lowercase pat) = true) ->
     is_column_safe b c = false)
  /\ ((forall pat, In pat (blocked p) -> starts_with (to_lowercase c) (to_lowercase pat) = false) ->
     is_column_safe b c = true).
Proof.
  unfold is_column_safe. rewrite Hc, Hval, Hprot, Hp. simpl. unfold is_safe. split.
  - intros Hm. apply negb_false_iff. apply existsb_exists. exact Hm.
  - intros Hn. apply negb_true_iff. apply not_true_iff_false. intros Hex.
    apply existsb_exists in Hex. destruct Hex as [pat [Hin Hs]].
    rewrite (Hn pat Hin) in Hs. discriminate.
Qed.

Lemma denylist_survives_disabled_validation_witness :
  is_column_safe (disable_column_validation test_builder) "pg_class" = false
  /\ is_column_safe (disable_column_validation test_builder) "XMIN" = false
  /\ is_column_safe (disable_column_validation test_builder) "nickname" = true.
Proof.
  split; [|split].
  - apply (denylist_survives_disabled_validation (disable_column_validation test_builder)
             (mkColumnProtection COLUMN_PROTECTION_BLOCKED_POSTGRES) "pg_class"
             eq_refl eq_refl eq_refl eq_refl).
    exists "pg_". split; [simpl; tauto | reflexivity].
  - apply (denylist_survives_disabled_validation (disable_column_validation test_builder)
             (mkColumnProtection COLUMN_PROTECTION_BLOCKED_POSTGRES) "XMIN"
             eq_refl eq_refl eq_refl eq_refl).
    exists "xmin". split; [simpl; tauto | reflexivity].
  - apply (denylist_survives_disabled_validation (disable_column_validation test_builder)
             (mkColumnProtection COLUMN_PROTECTION_BLOCKED_POSTGRES) "nickname"
             eq_refl eq_refl eq_refl eq_refl).
    intros pat Hin. simpl in Hin.
    repeat (destruct Hin as [<-|Hin]; [reflexivity|]). destruct Hin.
Defined.

(* ------------------------------------------------------------------ *)
(** ** Total pages *)

(** Without overflow, [available_pages] is the ceiling of [count /
    page_size], and 0 for an empty result. *)
Lemma available_pages_ceil (count page_size : Z) :
  (0 <= count)%Z -> (1 <= page_size)%Z -> (count + page_size < 2 ^ 63)%Z ->
  available_pages count page_size
  = (if (count =? 0)%Z then 0 else (count + page_size - 1) / page_size)%Z.
Proof.
  intros H0 H1 H2. unfold available_pages, i64_wrap.
  destruct count as [|pc|pc] eqn:Ec; [reflexivity| |lia]. simpl.
  rewrite <- Ec in *.
  rewrite (Z.mod_small (count + page_size + 2 ^ 63) (2 ^ 64)) by lia.
  replace (count + page_size + 2 ^ 63 - 2 ^ 63 - 1 + 2 ^ 63)%Z
    with (count + page_size - 1 + 2 ^ 63)%Z by lia.
  rewrite (Z.mod_small (count + page_size - 1 + 2 ^ 63) (2 ^ 64)) by lia.
  replace (count + page_size - 1 + 2 ^ 63 - 2 ^ 63)%Z with (count + page_size - 1)%Z by lia.
  apply Z.quot_div_nonneg; lia.
Qed.

(** C7 (failing input): with [page_size = i64::MAX] and a count of 2,
    [count + page_size - 1] overflows and [fetch_paginated] reports
    [total_pages = -1] (a release build; a debug build panics), where
    the ceiling of [2 / page_size] is 1. *)
Theorem total_pages_overflow :
  let params := mkQueryParams (mkQueryPaginationParams 1 9223372036854775807)
                  (mkQuerySortParams Descending "created_at")
                  (mkQuerySearchParams None None) [] in
  let '(resp, _, _) :=
    fetch_paginated (stateless (fun _ => ([], []))) tt "WITH base_query AS (SELECT * FROM t)"
      " ORDER BY created_at DESC LIMIT 9223372036854775807 OFFSET 0" params true
      (fun _ _ => 2%Z) (fun _ _ => @nil unit) in
  total resp = Some 2%Z /\ total_pages resp = Some (-1)%Z
  /\ ((2 + 9223372036854775807 - 1) / 9223372036854775807 = 1)%Z.
Proof. vm_compute. repeat split. Qed.

(* ------------------------------------------------------------------ *)
(** ** Placeholder ordinals of generated SQL text *)

Lemma append_cons (x : ascii) (a b : string) : String x a ++ b = String x (a ++ b).
Proof. reflexivity. Qed.

Lemma append_nil_l (a : string) : EmptyString ++ a = a.
Proof. reflexivity. Qed.

Lemma string_app_assoc (a b c : string) : (a ++ b) ++ c = a ++ (b ++ c).
Proof. induction a as [|x a IH]; [reflexivity|]. rewrite !append_cons, IH. reflexivity. Qed.

Lemma string_app_nil_r (a : string) : a ++ EmptyString = a.
Proof. induction a as [|x a IH]; [reflexivity|]. rewrite append_cons, IH. reflexivity. Qed.

Lemma format_one (a : string) : format [a] = a.
Proof. reflexivity. Qed.

Lemma format_cons2 (a b : string) (l : list string) : format (a :: b :: l) = a ++ format (b :: l).
Proof. reflexivity. Qed.

Lemma scan_app (st : scan_state) (s1 s2 : string) :
  scan st (s1 ++ s2)
  = let '(e1, st1) := scan st s1 in let '(e2, st2) := scan st1 s2 in ((e1 ++ e2)%list, st2).
Proof.
  revert st. induction s1 as [|c s1 IH]; intros st.
  - rewrite append_nil_l. simpl. destruct (scan st s2). reflexivity.
  - rewrite append_cons. simpl. destruct (scan_step st c) as [e0 st0]. rewrite IH.
    destruct (scan st0 s1) as [e1 st1]. destruct (scan st1 s2) as [e2 st2].
    rewrite app_assoc. reflexivity.
Qed.

Lemma neutral_app (a b : string) : neutral a -> neutral b -> neutral (a ++ b).
Proof. unfold neutral. intros Ha Hb. rewrite scan_app, Ha, Hb. reflexivity. Qed.

Lemma neutral_ords (a b : string) :
  neutral a -> placeholder_ordinals (a ++ b) = placeholder_ordinals b.
Proof.
  unfold neutral, placeholder_ordinals. intros Ha. rewrite scan_app, Ha.
  destruct (scan Out b). reflexivity.
Qed.

Lemma neutral_spec (a : string) : neutral a -> ords_spec a [].
Proof. intros Ha r _. apply neutral_ords, Ha. Qed.

Lemma spec_app_neutral (a b : string) (o : list nat) :
  neutral a -> ords_spec b o -> ords_spec (a ++ b) o.
Proof.
  intros Ha Hb r Hr. rewrite string_app_assoc, neutral_ords by exact Ha. apply Hb, Hr.
Qed.

Lemma nondigit_start_app (b r : string) :
  nondigit_start b = true -> nondigit_start r = true -> nondigit_start (b ++ r) = true.
Proof. destruct b; simpl; auto. Qed.

Lemma spec_app (a b : string) (oa ob o : list nat) :
  ords_spec a oa -> ords_spec b ob -> nondigit_start b = true -> o = (oa ++ ob)%list ->
  ords_spec (a ++ b) o.
Proof.
  intros Ha Hb Hnd -> r Hr. rewrite string_app_assoc.
  rewrite Ha by (apply nondigit_start_app; assumption).
  rewrite Hb by exact Hr. apply app_assoc.
Qed.

Lemma spec_final (x : string) (o : list nat) : ords_spec x o -> placeholder_ordinals x = o.
Proof.
  intros H. specialize (H EmptyString eq_refl). rewrite string_app_nil_r in H.
  rewrite H. apply app_nil_r.
Qed.

(** *** Decimal placeholders read back *)

Lemma digit_char_spec (d : nat) :
  (d < 10)%nat -> is_digit (digit_char d) = true /\ digit_value (digit_char d) = d.
Proof.
  intros Hd. unfold is_digit, digit_value, digit_char.
  rewrite Ascii.nat_ascii_embedding by lia.
  split; [apply andb_true_intro; split; apply Nat.leb_le; lia | lia].
Qed.

Lemma scan_dec_aux (fuel n : nat) (acc : string) :
  (n < fuel)%nat -> scan Dollar (dec_aux fuel n acc) = scan (Num n) acc.
Proof.
  revert n acc. induction fuel as [|fuel IH]; intros n acc Hn; [lia|].
  cbn [dec_aux]. destruct (digit_char_spec (n mod 10)) as [Hd Hv]; [apply Nat.mod_upper_bound; lia|].
  remember (digit_char (n mod 10)) as d eqn:Ed. clear Ed.
  destruct (n <? 10)%nat eqn:Hlt.
  - apply Nat.ltb_lt in Hlt. cbn [scan scan_step]. rewrite Hd, Hv, Nat.mod_small by exact Hlt.
    destruct (scan (Num n) acc). reflexivity.
  - apply Nat.ltb_ge in Hlt. rewrite IH.
    + cbn [scan scan_step]. rewrite Hd, Hv.
      replace (10 * (n / 10) + n mod 10)%nat with n by (pose proof (Nat.div_mod_eq n 10); lia).
      destruct (scan (Num n) acc). reflexivity.
    + pose proof (Nat.div_lt n 10). lia.
Qed.

Lemma scan_out_dollar (s : string) : scan Out (String "$"%char s) = scan Dollar s.
Proof. simpl. change (scan_out "$"%char) with Dollar. destruct (scan Dollar s). reflexivity. Qed.

Lemma scan_placeholder (n : nat) :
  scan Out (placeholder PostgresDialect n) = ([], Num n).
Proof.
  change (placeholder PostgresDialect n) with (String "$"%char (usize_to_string n)).
  rewrite scan_out_dollar. unfold usize_to_string. rewrite scan_dec_aux by lia. reflexivity.
Qed.

Lemma ph_spec (n : nat) : ords_spec (placeholder PostgresDialect n) [n].
Proof.
  intros r Hr. unfold placeholder_ordinals. rewrite scan_app, scan_placeholder.
  destruct r as [|c r]; simpl; [reflexivity|].
  simpl in Hr. apply negb_true_iff in Hr. rewrite Hr.
  destruct (scan (scan_out c) r). reflexivity.
Qed.

Lemma ph_nondigit_start (n : nat) : nondigit_start (placeholder PostgresDialect n) = true.
Proof. reflexivity. Qed.

(** *** Quoted identifiers *)

Lemma scan_double_quotes (s : string) : scan Quoted (double_quotes s) = ([], Quoted).
Proof.
  induction s as [|c s IH]; [reflexivity|].
  cbn [double_quotes]. destruct (Ascii.eqb c dquote) eqn:E.
  - cbn [scan scan_step]. change (Ascii.eqb dquote dquote) with true. cbn iota.
    change (scan_step Out dquote) with (@nil nat, Quoted). cbn iota. rewrite IH. reflexivity.
  - cbn [scan scan_step]. rewrite E, IH. reflexivity.
Qed.

Lemma neutral_quote (s : string) : neutral (quote_identifier PostgresDialect s).
Proof.
  unfold neutral. simpl quote_identifier. rewrite format_cons2, format_cons2, format_one.
  rewrite scan_app. simpl. rewrite scan_app, scan_double_quotes. reflexivity.
Qed.

Lemma neutral_format_column (b : QueryBuilder) (column : string) :
  dialect b = PostgresDialect -> neutral (format_column b column).
Proof.
  intros HD. unfold format_column. rewrite HD.
  destruct (table_prefix b) as [prefix|].
  - rewrite format_cons2, format_cons2, format_one.
    apply neutral_app; [apply neutral_quote|]. apply neutral_app; [reflexivity|apply neutral_quote].
  - apply neutral_quote.
Qed.

Lemma type_cast_pg (ft : FieldType) :
  neutral (get_postgres_type_casting ft) /\ nondigit_start (get_postgres_type_casting ft) = true.
Proof. destruct ft; split; reflexivity. Qed.

(** *** Composing the ordinals of a generated condition *)

Ltac neutral_tac := first [assumption | apply neutral_quote | reflexivity].
Ltac nondigit_tac :=
  first [assumption | reflexivity | apply nondigit_start_app; nondigit_tac].
Ltac ords_solve :=
  repeat rewrite ?format_cons2, ?format_one;
  repeat match goal with
  | |- ords_spec (placeholder PostgresDialect _ ++ _) _ =>
      eapply spec_app; [apply ph_spec | | nondigit_tac | ]
  | |- ords_spec (placeholder PostgresDialect _) _ => apply ph_spec
  | |- ords_spec (("$" ++ usize_to_string ?n) ++ _) _ =>
      eapply spec_app; [exact (ph_spec n) | | nondigit_tac | ]
  | |- ords_spec ("$" ++ usize_to_string ?n) _ => exact (ph_spec n)
  | |- ords_spec (_ ++ _) _ => apply spec_app_neutral; [neutral_tac | ]
  | |- ords_spec _ _ => apply neutral_spec; neutral_tac
  | |- _ = _ => reflexivity
  end.

Lemma join_spec (sep : string) (xs : list string) (os : list (list nat)) :
  neutral sep -> nondigit_start sep = true -> sep <> EmptyString ->
  Forall2 ords_spec xs os -> ords_spec (join sep xs) (concat os).
Proof.
  intros Hn Hd Hne H. induction H as [|x o xs os Hx Hxs IH].
  - apply neutral_spec. reflexivity.
  - destruct xs as [|y ys].
    + inversion Hxs; subst. simpl. rewrite app_nil_r. exact Hx.
    + change (join sep (x :: y :: ys)) with (x ++ (sep ++ join sep (y :: ys))).
      eapply spec_app; [exact Hx | apply spec_app_neutral; [exact Hn | exact IH] | | reflexivity].
      destruct sep; [congruence | exact Hd].
Qed.

Lemma concat_singletons (l : list nat) : concat (map (fun i => [i]) l) = l.
Proof. induction l as [|x l IH]; simpl; [reflexivity|]. rewrite IH. reflexivity. Qed.

Lemma join_placeholders_spec (cast : string) (l : list nat) :
  neutral cast -> nondigit_start cast = true ->
  ords_spec (join ", " (map (fun i => format [placeholder PostgresDialect i; cast]) l)) l.
Proof.
  intros Hn Hd. rewrite <- (concat_singletons l) at 2.
  apply join_spec; [reflexivity | reflexivity | discriminate |].
  induction l as [|i l IH]; cbn [map]; constructor; [|exact IH].
  ords_solve.
Qed.

Lemma squash_cons2 (x y : nat) (l : list nat) :
  squash (x :: y :: l) = if Nat.eqb x y then squash (y :: l) else x :: squash (y :: l).
Proof. reflexivity. Qed.

Lemma squash_seq (a k : nat) : squash (seq a k) = seq a k.
Proof.
  revert a. induction k as [|k IH]; intros a; [reflexivity|].
  destruct k as [|k]; [reflexivity|].
  change (seq a (S (S k))) with (a :: S a :: seq (S (S a)) k).
  rewrite squash_cons2, (proj2 (Nat.eqb_neq a (S a))) by lia.
  f_equal. exact (IH (S a)).
Qed.

Lemma squash_repeat (n k : nat) : squash (repeat n (S k)) = [n].
Proof.
  induction k as [|k IH]; [reflexivity|].
  change (repeat n (S (S k))) with (n :: n :: repeat n k).
  rewrite squash_cons2, Nat.eqb_refl. exact IH.
Qed.

Lemma lockstep_snoc (off : nat) (conds : list string) (groups : list (list string))
    (c : string) (g : list string) :
  lockstep_from off conds groups ->
  squash (placeholder_ordinals c) = seq (S (off + length (concat groups))) (length g) ->
  lockstep_from off (conds ++ [c]) (groups ++ [g]).
Proof.
  revert off groups. induction conds as [|c0 cs IH]; intros off groups H Hc;
    destruct groups as [|g0 gs]; simpl in *; try contradiction.
  - rewrite Nat.add_0_r in Hc. split; [exact Hc | exact I].
  - destruct H as [H0 H]. split; [exact H0|]. apply IH; [exact H|].
    rewrite Hc, length_app, Nat.add_assoc. reflexivity.
Qed.

(** One filter on the numbered dialect: the condition names exactly the
    ordinals of the values it appends, following the existing ones. *)
Lemma filter_condition_pg (args : list string) (op : FilterOperator) (tc : string)
    (eff : FieldType) (v : FilterValue) (c : string) (args' : list string) :
  neutral tc ->
  filter_condition PostgresDialect args op tc eff (get_postgres_type_casting eff) v = Some (c, args') ->
  exists g, args' = (args ++ g)%list
    /\ squash (placeholder_ordinals c) = seq (S (length args)) (length g).
Proof.
  intros Htc H. destruct (type_cast_pg eff) as [Hcn Hcd].
  set (cast := get_postgres_type_casting eff) in *. clearbody cast.
  assert (E1 : (length args + 1 = S (length args))%nat) by lia.
  destruct op; cbv beta iota zeta delta [filter_condition bind_one] in H.
  11, 12: injection H as <- <-; exists []; rewrite app_nil_r; split; [reflexivity|];
    rewrite (spec_final _ []); [reflexivity | ords_solve].
  9, 10: rewrite bind_each_spec in H; injection H as <- <-;
    exists (to_bindable_strings v); split; [reflexivity|];
    rewrite (spec_final _ (seq (length args + 1) (length (to_bindable_strings v))));
    [rewrite squash_seq, E1; reflexivity|];
    rewrite ?format_cons2, ?format_one;
    apply spec_app_neutral; [exact Htc|]; apply spec_app_neutral; [reflexivity|];
    eapply spec_app; [apply join_placeholders_spec; assumption | apply neutral_spec; reflexivity
                     | reflexivity | rewrite app_nil_r; reflexivity].
  9: destruct (to_bindable_strings v) as [|v0 [|v1 rest]]; try discriminate;
    injection H as <- <-; exists [v0; v1]; rewrite <- app_assoc; split; [reflexivity|];
    rewrite (spec_final _ [length args + 1; length (args ++ [v0]) + 1]) by ords_solve;
    replace (length (args ++ [v0]) + 1)%nat with (S (S (length args)))
      by (rewrite length_app; simpl; lia);
    rewrite E1, squash_cons2, (proj2 (Nat.eqb_neq _ _)) by lia; reflexivity.
  7, 8: destruct (negb _ && negb _); injection H as <- <-.
  all: try (injection H as <- <-).
  all: exists [to_bindable_string v]; split; [reflexivity|].
  all: rewrite (spec_final _ [length args + 1]) by ords_solve.
  all: rewrite E1; reflexivity.
Qed.

(** *** Builder steps on the numbered dialect *)

Lemma set_state_set_state (b : QueryBuilder) cs args js cs' args' js' :
  set_state (set_state b cs args js) cs' args' js' = set_state b cs' args' js'.
Proof. reflexivity. Qed.

Lemma pg_builder_ok_set_state (b : QueryBuilder) cs args js :
  pg_builder_ok b -> pg_builder_ok (set_state b cs args js).
Proof. intros H. exact H. Qed.

Lemma fold_activate_joins (props : list ComputedProperty) (b : QueryBuilder) :
  exists js, fold_left activate_joins props b = set_state b (conditions b) (arguments b) js.
Proof.
  revert b. induction props as [|p props IH]; intros b; simpl.
  - exists (active_joins b). destruct b; reflexivity.
  - destruct (IH (activate_joins b p)) as [js Hjs]. exists js. rewrite Hjs. reflexivity.
Qed.

Lemma resolve_pg (b b1 : QueryBuilder) (fld tc : string) (ft : FieldType) :
  pg_builder_ok b -> resolve_filter_column b fld = Some (b1, tc, ft) ->
  (exists js, b1 = set_state b (conditions b) (arguments b) js) /\ neutral tc.
Proof.
  intros [HD [Hcp Hm]] H. unfold resolve_filter_column in H.
  destruct (computed_properties b !! fld) as [prop|] eqn:E.
  - injection H as <- <- <-. split; [eexists; reflexivity | exact (Hcp _ _ E)].
  - destruct (negb (is_column_safe b fld)); [discriminate|].
    injection H as <- <- <-. split.
    + exists (active_joins b). destruct b; reflexivity.
    + apply neutral_format_column, HD.
Qed.

Lemma apply_filter_step (b : QueryBuilder) (f : Filter) :
  pg_builder_ok b ->
  exists cs args js, apply_filter b f = set_state b cs args js
    /\ ((cs = conditions b /\ args = arguments b)
        \/ exists c g, cs = (conditions b ++ [c])%list /\ args = (arguments b ++ g)%list
             /\ squash (placeholder_ordinals c) = seq (S (length (arguments b))) (length g)).
Proof.
  intros Hok. unfold apply_filter.
  destruct (resolve_filter_column b (field f)) as [[[b1 tc] ft]|] eqn:Hr.
  2: { exists (conditions b), (arguments b), (active_joins b). split; [destruct b; reflexivity|].
       left; split; reflexivity. }
  destruct (resolve_pg _ _ _ _ _ Hok Hr) as [[js ->] Htc].
  destruct Hok as [HD _]. cbn [dialect set_state]. rewrite HD.
  destruct (filter_condition PostgresDialect (arguments (set_state b (conditions b) (arguments b) js))
              (operator f) tc (effective_field_type ft (value f))
              (type_cast PostgresDialect (effective_field_type ft (value f))) (value f))
    as [[c args]|] eqn:Hf.
  - destruct (filter_condition_pg _ _ _ _ _ _ _ Htc Hf) as [g [-> Hg]].
    exists (conditions b ++ [c])%list, (arguments b ++ g)%list, js. split; [reflexivity|].
    right. exists c, g. repeat split; assumption.
  - exists (conditions b), (arguments b), js. split; [reflexivity|]. left; split; reflexivity.
Qed.

Lemma search_column_pg (b : QueryBuilder) (search : string) (n : nat) (column frag : string)
    (o : option ComputedProperty) :
  pg_builder_ok b -> search_column b search n column = Some (frag, o) -> ords_spec frag [n].
Proof.
  intros [HD [Hcp Hm]] H. unfold search_column in H. rewrite HD in H.
  destruct (computed_properties b !! column) as [prop|] eqn:E.
  - pose proof (Hcp _ _ E) as Hx. injection H as <- _.
    destruct (decide _); ords_solve.
  - destruct (mappers b !! column) as [m|] eqn:Em.
    + destruct (Hm _ _ Em column search) as [Hn Hp].
      unfold fmap, option_fmap, option_map in H. cbv beta iota in H.
      destruct (m column search) as [tc p] eqn:Emc. cbn [fst snd] in Hn, Hp. subst p.
      injection H as <- _.
      destruct (decide _); ords_solve.
    + cbv beta iota in H. destruct (negb (is_column_safe b column)); [discriminate|].
      unfold fmap, option_fmap, option_map in H. cbv beta iota in H. injection H as <- _.
      pose proof (neutral_format_column b column HD) as Hfc.
      destruct (decide _); ords_solve.
Qed.

Lemma search_results_pg (b : QueryBuilder) (search : string) (n : nat) (columns : list string) :
  pg_builder_ok b ->
  Forall (fun frag => ords_spec frag [n]) (map fst (omap (search_column b search n) columns)).
Proof.
  intros Hok. apply Forall_forall. intros frag Hin.
  apply list_elem_of_In, in_map_iff in Hin as [[frag' o] [Hf Hin]]. cbn [fst] in Hf. subst frag'.
  apply list_elem_of_In, list_elem_of_omap in Hin as [column [_ Hc]].
  exact (search_column_pg _ _ _ _ _ _ Hok Hc).
Qed.

Lemma Forall2_const (xs : list string) (o : list nat) :
  Forall (fun x => ords_spec x o) xs -> Forall2 ords_spec xs (map (fun _ => o) xs).
Proof. induction 1; constructor; assumption. Qed.

Lemma concat_const (xs : list string) (n : nat) :
  concat (map (fun _ => [n]) xs) = repeat n (length xs).
Proof. induction xs as [|x xs IH]; simpl; [reflexivity|]. rewrite IH. reflexivity. Qed.

(** The search condition names the one ordinal of the search pattern,
    once per fragment. *)
Lemma search_condition_ords (frags : list string) (n : nat) :
  Forall (fun frag => ords_spec frag [n]) frags ->
  placeholder_ordinals (format ["("; join " OR " frags; ")"]) = repeat n (length frags).
Proof.
  intros H. apply spec_final. rewrite !format_cons2, format_one.
  apply spec_app_neutral; [reflexivity|].
  eapply spec_app; [| apply neutral_spec; reflexivity | reflexivity | symmetry; apply app_nil_r].
  rewrite <- concat_const. apply join_spec; [reflexivity | reflexivity | discriminate |].
  apply Forall2_const, H.
Qed.

Lemma with_search_step (b : QueryBuilder) (params : QueryParams) :
  pg_builder_ok b ->
  exists cs args js, with_search b params = set_state b cs args js
    /\ ((cs = conditions b /\ args = arguments b)
        \/ exists c g, cs = (conditions b ++ [c])%list /\ args = (arguments b ++ g)%list
             /\ squash (placeholder_ordinals c) = seq (S (length (arguments b))) (length g)).
Proof.
  intros Hok.
  assert (Hsame : exists js, b = set_state b (conditions b) (arguments b) js)
    by (exists (active_joins b); destruct b; reflexivity).
  destruct Hsame as [js0 Hb0].
  unfold with_search.
  destruct (search (search_params params)) as [s|];
    [|exists (conditions b), (arguments b), js0; split; [exact Hb0 | left; split; reflexivity]].
  destruct (search_columns (search_params params)) as [columns|];
    [|exists (conditions b), (arguments b), js0; split; [exact Hb0 | left; split; reflexivity]].
  destruct (negb (is_empty columns) && negb (trim_is_empty s));
    [|exists (conditions b), (arguments b), js0; split; [exact Hb0 | left; split; reflexivity]].
  cbv zeta.
  pose proof (search_results_pg b s (length (arguments b) + 1) columns Hok) as Hfr.
  set (results := omap (search_column b s (length (arguments b) + 1)) columns) in *.
  destruct (fold_activate_joins (omap snd results) b) as [js Hjs]. rewrite Hjs.
  cbn [conditions arguments active_joins set_state].
  destruct (negb (is_empty (map fst results))) eqn:Hne.
  - eexists _, _, js. split; [reflexivity|]. right.
    eexists _, [_]. split; [reflexivity|]. split; [reflexivity|].
    rewrite (search_condition_ords _ _ Hfr).
    destruct (map fst results) as [|f0 fs]; [discriminate|].
    cbn [length]. rewrite squash_repeat, Nat.add_1_r. reflexivity.
  - exists (conditions b), (arguments b), js. split; [reflexivity|]. left; split; reflexivity.
Qed.

Lemma step_preserves (b b' : QueryBuilder) :
  (exists cs args js, b' = set_state b cs args js
    /\ ((cs = conditions b /\ args = arguments b)
        \/ exists c g, cs = (conditions b ++ [c])%list /\ args = (arguments b ++ g)%list
             /\ squash (placeholder_ordinals c) = seq (S (length (arguments b))) (length g))) ->
  pg_builder_ok b -> in_lockstep b -> pg_builder_ok b' /\ in_lockstep b'.
Proof.
  intros [cs [args [js [-> Hcase]]]] Hok [groups [Ha Hl]].
  split; [apply pg_builder_ok_set_state, Hok|].
  destruct Hcase as [[-> ->] | [c [g [-> [-> Hc]]]]].
  - exists groups. split; assumption.
  - exists (groups ++ [g])%list. cbn [conditions arguments set_state]. split.
    + rewrite Ha, concat_app. simpl. rewrite app_nil_r. reflexivity.
    + apply lockstep_snoc; [exact Hl|]. rewrite Hc, Ha. reflexivity.
Qed.

Lemma with_filters_preserves (b : QueryBuilder) (params : QueryParams) :
  pg_builder_ok b -> in_lockstep b ->
  pg_builder_ok (with_filters b params) /\ in_lockstep (with_filters b params).
Proof.
  unfold with_filters. generalize (filters params) as fs.
  intros fs. revert b. induction fs as [|f fs IH]; intros b Hok Hl; [split; assumption|].
  simpl. destruct (step_preserves b (apply_filter b f) (apply_filter_step b f Hok) Hok Hl).
  apply IH; assumption.
Qed.

Lemma run_call_preserves (b : QueryBuilder) (call : BuilderCall) :
  pg_builder_ok b -> in_lockstep b ->
  pg_builder_ok (run_call b call) /\ in_lockstep (run_call b call).
Proof.
  intros Hok Hl. destruct call as [params|params]; simpl.
  - exact (step_preserves b _ (with_search_step b params Hok) Hok Hl).
  - apply with_filters_preserves; assumption.
Qed.

(** C1 (amended). On the numbered ([$n]) dialect, for a builder whose
    computed-property expressions and mapper column texts hold no
    placeholder and whose mappers leave the placeholder to the builder,
    every sequence of [with_search] / [with_filters] calls keeps the
    conditions and the arguments in lockstep: the arguments split into
    consecutive groups, one per condition, and the placeholder ordinals
    written in each condition are exactly the 1-based positions of its
    group (a search condition names its one ordinal once per column). *)
Theorem run_calls_lockstep (b : QueryBuilder) (calls : list BuilderCall) :
  pg_builder_ok b -> in_lockstep b -> in_lockstep (run_calls b calls).
Proof.
  unfold run_calls. revert b. induction calls as [|call calls IH]; intros b Hok Hl; [exact Hl|].
  simpl. destruct (run_call_preserves b call Hok Hl) as [Hok' Hl'].
  apply IH; assumption.
Qed.

Lemma test_builder_pg_ok : pg_builder_ok test_builder.
Proof.
  split; [reflexivity|]. split.
  - intros name prop H.
    change (computed_properties test_builder) with (∅ : gmap string ComputedProperty) in H.
    rewrite lookup_empty in H. discriminate.
  - intros name m H. change (mappers test_builder) with (∅ : gmap string Mapper) in H.
    rewrite lookup_empty in H. discriminate.
Qed.

Lemma run_calls_lockstep_witness :
  pg_builder_ok test_builder /\ in_lockstep test_builder
  /\ in_lockstep (run_calls test_builder sample_calls).
Proof.
  assert (Hl : in_lockstep test_builder) by (exists []; split; [reflexivity | exact I]).
  split; [exact test_builder_pg_ok|]. split; [exact Hl|].
  exact (run_calls_lockstep test_builder sample_calls test_builder_pg_ok Hl).
Defined.

(** C1 (as stated, refuted). A mapper may return its own placeholder
    ([map_column]'s closure returns [(String, Option<String>)]); the
    search condition then names ordinal 7 while its argument is the
    first one: no grouping of the arguments is in lockstep with the
    conditions. *)
Lemma own_placeholder_breaks_lockstep :
  ~ in_lockstep (run_calls mapped_builder [SearchCall (search_params_of (Some "jo") (Some ["name"]))]).
Proof.
  intros [groups [Ha Hl]].
  destruct groups as [|g [|g2 gs]]; vm_compute in Hl.
  1: contradiction.
  2: destruct Hl as [_ []].
  cbn [concat] in Ha. rewrite app_nil_r in Ha. subst g.
  vm_compute in Hl. destruct Hl as [Hl _]. discriminate.
Qed.

Lemma search_column_safe (b : QueryBuilder) (search : string) (n : nat) (column : string) :
  is_column_safe b column = true -> exists r, search_column b search n column = Some r.
Proof.
  intros H. unfold search_column.
  destruct (computed_properties b !! column); [eexists; reflexivity|].
  destruct (mappers b !! column); cbv beta iota; [eexists; reflexivity|].
  rewrite H. cbv beta iota. eexists; reflexivity.
Qed.

(** C10 (amended). A search with a non-blank term over columns of which
    at least one is safe (or computed) appends exactly one condition, the
    column fragments joined with [OR] in parentheses, and exactly one
    argument, [%term%]. On the numbered dialect, when no mapper supplies
    its own placeholder and no expression or mapper text holds one, every
    fragment names the single ordinal [arguments.len() + 1], once. *)
Theorem with_search_single_condition (b : QueryBuilder) (params : QueryParams)
    (s : string) (columns : list string)
    (Hs : search (search_params params) = Some s)
    (Hc : search_columns (search_params params) = Some columns)
    (Hne : trim_is_empty s = false)
    (Hsafe : exists column, In column columns /\ is_column_safe b column = true) :
  let n := (length (arguments b) + 1)%nat in
  let frags := map fst (omap (search_column b s n) columns) in
  frags <> []
  /\ conditions (with_search b params) = (conditions b ++ [format ["("; join " OR " frags; ")"]])%list
  /\ arguments (with_search b params) = (arguments b ++ [format ["%"; s; "%"]])%list
  /\ (pg_builder_ok b ->
      Forall (fun frag => placeholder_ordinals frag = [n]) frags
      /\ placeholder_ordinals (format ["("; join " OR " frags; ")"]) = repeat n (length frags)).
Proof.
  intros n frags.
  assert (Hfr : frags <> []).
  { destruct Hsafe as [column [Hin Hcs]].
    destruct (search_column_safe b s n column Hcs) as [[frag o] Hr].
    assert (Hm : frag ∈ frags).
    { apply list_elem_of_In, in_map_iff. exists (frag, o). split; [reflexivity|].
      apply list_elem_of_In, list_elem_of_omap. exists column. split; [|exact Hr].
      apply list_elem_of_In, Hin. }
    intros E. rewrite E in Hm. inversion Hm. }
  split; [exact Hfr|].
  assert (Hgoal : conditions (with_search b params) = (conditions b ++ [format ["("; join " OR " frags; ")"]])%list
    /\ arguments (with_search b params) = (arguments b ++ [format ["%"; s; "%"]])%list).
  { unfold with_search. rewrite Hs, Hc.
    destruct columns as [|c0 cs]; [destruct Hsafe as [? [[] _]]|].
    rewrite Hne. cbv zeta. cbn [is_empty negb andb].
    destruct (fold_activate_joins (omap snd (omap (search_column b s (length (arguments b) + 1)) (c0 :: cs))) b)
      as [js Hjs].
    rewrite Hjs. cbn [conditions arguments active_joins set_state].
    fold n. fold frags.
    destruct frags as [|f0 fs]; [congruence|]. cbn [is_empty negb].
    split; reflexivity. }
  split; [exact (proj1 Hgoal)|]. split; [exact (proj2 Hgoal)|].
  intros Hok. pose proof (search_results_pg b s n columns Hok) as Hf. fold frags in Hf.
  split.
  - eapply Forall_impl; [exact Hf|]. intros frag Hx. apply spec_final, Hx.
  - apply search_condition_ords, Hf.
Qed.

Lemma with_search_single_condition_witness :
  search (search_params (search_params_of (Some "jo") (Some ["name"; "id"]))) = Some "jo"
  /\ map placeholder_ordinals (conditions (with_search test_builder
       (search_params_of (Some "jo") (Some ["name"; "id"])))) = [[1; 1]]
  /\ arguments (with_search test_builder (search_params_of (Some "jo") (Some ["name"; "id"])))
     = [format ["%"; "jo"; "%"]].
Proof.
  pose proof (with_search_single_condition test_builder
    (search_params_of (Some "jo") (Some ["name"; "id"])) "jo" ["name"; "id"]
    eq_refl eq_refl eq_refl
    (ex_intro (fun column => In column ["name"; "id"] /\ is_column_safe test_builder column = true)
       "name" (conj (or_introl eq_refl) eq_refl))) as H.
  cbv zeta in H. destruct H as [_ [Hc [Ha Hp]]].
  destruct (Hp test_builder_pg_ok) as [_ Ho].
  split; [reflexivity|]. split.
  - rewrite Hc. vm_compute. reflexivity.
  - exact Ha.
Defined.

(** C10 (as stated, refuted). With a mapper that supplies its own
    placeholder on [name], the fragments of one search condition name
    different ordinals (7 for [name], 1 for [id]): not every fragment
    names [arguments.len() + 1]. *)
Lemma own_placeholder_search_ordinals :
  ~ Forall (fun o => o = length (arguments mapped_builder) + 1)%nat
      (concat (map placeholder_ordinals
        (conditions (with_search mapped_builder (search_params_of (Some "jo") (Some ["name"; "id"])))))).
Proof. vm_compute. intros H. inversion H. discriminate. Qed.

(** *** The default function does not depend on the order of the columns *)

Section KeyOrder.

Variables (b : QueryBuilder) (vs : list string).
Hypothesis Hvs : forall k, contains vs k = contains (valid_columns b) k.

Lemma is_column_safe_vs (column : string) :
  is_column_safe (with_valid_columns b vs) column = is_column_safe b column.
Proof. unfold is_column_safe. cbn [valid_columns with_valid_columns]. rewrite Hvs. reflexivity. Qed.

Lemma search_column_vs (search : string) (n : nat) (column : string) :
  search_column (with_valid_columns b vs) search n column = search_column b search n column.
Proof. unfold search_column. rewrite is_column_safe_vs. reflexivity. Qed.

Lemma apply_filter_vs (f : Filter) :
  apply_filter (with_valid_columns b vs) f = with_valid_columns (apply_filter b f) vs.
Proof.
  unfold apply_filter, resolve_filter_column. rewrite is_column_safe_vs.
  destruct (computed_properties b !! field f) as [prop|] eqn:E;
    cbn [computed_properties with_valid_columns]; rewrite E.
  - destruct (filter_condition _ _ _ _ _ _ _) as [[]|]; reflexivity.
  - destruct (negb (is_column_safe b (field f))); [reflexivity|].
    destruct (filter_condition _ _ _ _ _ _ _) as [[]|]; reflexivity.
Qed.

End KeyOrder.

Lemma omap_ext {A B : Type} (f g : A -> option B) (l : list A) :
  (forall x, f x = g x) -> omap f l = omap g l.
Proof.
  intros H. induction l as [|x l IH]; [reflexivity|].
  cbn. rewrite H. destruct (g x); rewrite IH; reflexivity.
Qed.

Lemma fold_activate_joins_vs (props : list ComputedProperty) (b : QueryBuilder) (vs : list string) :
  fold_left activate_joins props (with_valid_columns b vs)
  = with_valid_columns (fold_left activate_joins props b) vs.
Proof.
  revert b. induction props as [|p props IH]; intros b; [reflexivity|].
  simpl. rewrite <- IH. reflexivity.
Qed.

Lemma contains_vs_preserved (b b' : QueryBuilder) (vs : list string) :
  valid_columns b' = valid_columns b ->
  (forall k, contains vs k = contains (valid_columns b) k) ->
  forall k, contains vs k = contains (valid_columns b') k.
Proof. intros E H k. rewrite E. apply H. Qed.

Lemma with_search_vs (b : QueryBuilder) (vs : list string) (params : QueryParams) :
  (forall k, contains vs k = contains (valid_columns b) k) ->
  with_search (with_valid_columns b vs) params = with_valid_columns (with_search b params) vs.
Proof.
  intros Hvs. unfold with_search.
  destruct (search (search_params params)) as [s|]; [|reflexivity].
  destruct (search_columns (search_params params)) as [columns|]; [|reflexivity].
  destruct (negb (is_empty columns) && negb (trim_is_empty s)); [|reflexivity].
  cbv zeta. cbn [arguments with_valid_columns].
  rewrite (omap_ext _ _ columns (search_column_vs b vs Hvs s _)).
  rewrite fold_activate_joins_vs.
  destruct (negb (is_empty _)); reflexivity.
Qed.

Lemma apply_filter_valid_columns (b : QueryBuilder) (f : Filter) :
  valid_columns (apply_filter b f) = valid_columns b.
Proof.
  unfold apply_filter, resolve_filter_column.
  destruct (computed_properties b !! field f).
  - destruct (filter_condition _ _ _ _ _ _ _) as [[]|]; reflexivity.
  - destruct (negb (is_column_safe b (field f))); [reflexivity|].
    destruct (filter_condition _ _ _ _ _ _ _) as [[]|]; reflexivity.
Qed.

Lemma with_filters_vs (b : QueryBuilder) (vs : list string) (params : QueryParams) :
  (forall k, contains vs k = contains (valid_columns b) k) ->
  with_filters (with_valid_columns b vs) params = with_valid_columns (with_filters b params) vs.
Proof.
  unfold with_filters. generalize (filters params) as fs. intros fs.
  revert b. induction fs as [|f fs IH]; intros b Hvs; [reflexivity|].
  simpl. rewrite apply_filter_vs by exact Hvs. apply IH.
  apply (contains_vs_preserved b), Hvs. apply apply_filter_valid_columns.
Qed.

Lemma with_search_valid_columns (b : QueryBuilder) (params : QueryParams) :
  valid_columns (with_search b params) = valid_columns b.
Proof.
  unfold with_search.
  destruct (search (search_params params)); [|reflexivity].
  destruct (search_columns (search_params params)); [|reflexivity].
  destruct (_ && _); [|reflexivity]. cbv zeta.
  destruct (fold_activate_joins (omap snd (omap (search_column b s (length (arguments b) + 1)) l)) b)
    as [js ->].
  destruct (negb _); reflexivity.
Qed.

(** C2 (amended). The library's default condition-building function
    ([build_query_with_safe_defaults], configured by [new_with_defaults])
    builds a fresh [QueryBuilder::new] on each call, whose valid columns
    are the keys of a [HashMap] in whatever order it yields them; the
    conditions, arguments and joins it returns do not depend on that
    order, so its two calls in [fetch_paginated] return byte-identical
    conditions and equal arguments. *)
Theorem default_build_key_order (D : QueryDialect) (prot : ColumnProtection)
    (meta : gmap string FieldType) (keys1 keys2 : list string) (params : QueryParams)
    (Hk : forall k, contains keys1 k = contains keys2 k) :
  build_query_with_safe_defaults D prot meta keys1 params
  = build_query_with_safe_defaults D prot meta keys2 params.
Proof.
  unfold build_query_with_safe_defaults.
  change (with_table_prefix (QueryBuilder_new D prot meta keys2) "base_query")
    with (with_valid_columns (with_table_prefix (QueryBuilder_new D prot meta keys1) "base_query") keys2).
  rewrite with_search_vs by (intros k; symmetry; exact (Hk k)).
  rewrite with_filters_vs
    by (intros k; rewrite with_search_valid_columns; symmetry; exact (Hk k)).
  reflexivity.
Qed.

Lemma default_build_key_order_witness :
  (forall k, contains ["id"; "name"; "amount"] k = contains ["amount"; "id"; "name"] k)
  /\ default_build_fn ["id"; "name"; "amount"]
       (mkQueryParams (mkQueryPaginationParams 1 10) (mkQuerySortParams Descending "created_at")
          (mkQuerySearchParams (Some "jo") (Some ["name"; "id"]))
          [mkFilter "amount" FilterOperator.Lt (FilterValue.Float "99.99")])
     = default_build_fn ["amount"; "id"; "name"]
       (mkQueryParams (mkQueryPaginationParams 1 10) (mkQuerySortParams Descending "created_at")
          (mkQuerySearchParams (Some "jo") (Some ["name"; "id"]))
          [mkFilter "amount" FilterOperator.Lt (FilterValue.Float "99.99")]).
Proof.
  assert (Hk : forall k, contains ["id"; "name"; "amount"] k = contains ["amount"; "id"; "name"] k).
  { intros k. unfold contains. simpl.
    destruct (String.eqb k "id"), (String.eqb k "name"), (String.eqb k "amount"); reflexivity. }
  split; [exact Hk|]. unfold default_build_fn.
  rewrite (default_build_key_order _ _ _ _ _ _ Hk). reflexivity.
Defined.

(** C2 (as stated, refuted). The configured function is any [Fn]
    closure; one that counts its calls returns different conditions and
    a different number of arguments on the second call, and
    [fetch_paginated] then runs the count statement (built with the
    first call's conditions) with the second call's one argument. *)
Lemma counting_fn_not_idempotent :
  let fn := counting_build_fn (default_build_fn ["id"; "name"; "amount"]) in
  let params := filter_params [] in
  fst (fst (fn 0%nat params)) <> fst (fst (fn (snd (fn 0%nat params)) params))
  /\ length (snd (fst (fn 0%nat params))) <> length (snd (fst (fn (snd (fn 0%nat params)) params)))
  /\ (let '(_, _, statements) :=
        fetch_paginated fn 0%nat "WITH base_query AS (SELECT * FROM t)" " LIMIT 10 OFFSET 0"
          params true (fun _ _ => 0%Z) (fun _ _ => @nil unit) in
      map (fun statement => length (snd statement)) statements = [1%nat; 0%nat]).
Proof. vm_compute. split; [intros H; discriminate H|]. split; [intros H; discriminate H|]. reflexivity. Qed.

(* ------------------------------------------------------------------ *)
(** ** More of the builder: conditions, checks, computed properties, joins *)

Lemma squash_cons_ne (x : nat) (l : list nat) : squash (x :: l) <> [].
Proof.
  revert x. induction l as [|y l IH]; intros x; [discriminate|].
  rewrite squash_cons2. destruct (Nat.eqb x y); [apply IH | discriminate].
Qed.

Lemma lockstep_length (off : nat) (cs : list string) (gs : list (list string)) :
  lockstep_from off cs gs ->
  length (concat gs) = list_sum (map (fun c => length (squash (placeholder_ordinals c))) cs).
Proof.
  revert off gs. induction cs as [|c cs IH]; intros off gs H; destruct gs as [|g gs];
    simpl in *; try contradiction; [reflexivity|].
  destruct H as [H0 H]. rewrite length_app, (IH _ _ H), H0, length_seq. reflexivity.
Qed.




(** [with_raw_condition] binds no argument: a raw condition without
    placeholders keeps the conditions and arguments in lockstep. *)
Theorem with_raw_condition_lockstep (b : QueryBuilder) (condition : string) :
  neutral condition -> in_lockstep b -> in_lockstep (with_raw_condition b condition).
Proof.
  intros Hc [groups [Ha Hl]]. exists (groups ++ [[]])%list. split.
  - cbn [arguments with_raw_condition set_state]. rewrite Ha, concat_app. simpl.
    rewrite !app_nil_r. reflexivity.
  - apply lockstep_snoc; [exact Hl|].
    rewrite (spec_final _ [] (neutral_spec _ Hc)). reflexivity.
Qed.

Lemma with_raw_condition_lockstep_witness :
  neutral "status != 'deleted'" /\ in_lockstep test_builder
  /\ in_lockstep (with_raw_condition test_builder "status != 'deleted'").
Proof.
  assert (Hn : neutral "status != 'deleted'") by reflexivity.
  assert (Hl : in_lockstep test_builder) by (exists []; split; [reflexivity | exact I]).
  split; [exact Hn|]. split; [exact Hl|].
  exact (with_raw_condition_lockstep test_builder _ Hn Hl).
Defined.

(** A raw condition that names a placeholder always breaks the lockstep:
    no argument is bound for it, so no grouping of the arguments matches
    the ordinals written in the conditions. *)
Theorem raw_placeholder_breaks_lockstep (b : QueryBuilder) (condition : string) :
  in_lockstep b -> placeholder_ordinals condition <> [] ->
  ~ in_lockstep (with_raw_condition b condition).
Proof.
  intros [g1 [Ha1 Hl1]] Hne [g2 [Ha2 Hl2]].
  cbn [conditions arguments with_raw_condition set_state] in Ha2, Hl2.
  apply lockstep_length in Hl1, Hl2.
  rewrite <- Ha1 in Hl1. rewrite <- Ha2, map_app, list_sum_app in Hl2. simpl in Hl2.
  destruct (placeholder_ordinals condition) as [|x l]; [congruence|].
  pose proof (squash_cons_ne x l) as Hs. destruct (squash (x :: l)); [congruence|].
  simpl in Hl2. lia.
Qed.

Lemma raw_placeholder_breaks_lockstep_witness :
  in_lockstep test_builder /\ placeholder_ordinals "id = $1" <> []
  /\ ~ in_lockstep (with_raw_condition test_builder "id = $1").
Proof.
  assert (Hl : in_lockstep test_builder) by (exists []; split; [reflexivity | exact I]).
  assert (Hp : placeholder_ordinals "id = $1" <> []) by (vm_compute; discriminate).
  split; [exact Hl|]. split; [exact Hp|].
  exact (raw_placeholder_breaks_lockstep test_builder _ Hl Hp).
Defined.

(** With column validation on, every column [is_column_safe] accepts is
    one [has_column] reports. *)
Theorem safe_column_has_column (b : QueryBuilder) (column : string) :
  column_validation_enabled b = true -> is_column_safe b column = true ->
  has_column b column = true.
Proof.
  intros Hv Hs. unfold is_column_safe in Hs. unfold has_column.
  destruct (computed_properties b !! column); [apply orb_true_r|].
  rewrite Hv in Hs. rewrite orb_false_r.
  destruct (protection_enabled b); [|exact Hs].
  destruct (protection b); [|exact Hs]. simpl in Hs. apply andb_prop in Hs. apply Hs.
Qed.

Lemma safe_column_has_column_witness :
  column_validation_enabled test_builder = true /\ is_column_safe test_builder "name" = true
  /\ has_column test_builder "name" = true.
Proof.
  split; [reflexivity|]. split; [vm_compute; reflexivity|].
  apply safe_column_has_column; [reflexivity | vm_compute; reflexivity].
Defined.

(** Disabling protection or column validation never rejects a column that
    was accepted before. *)
Theorem disabling_checks_keeps_safe_columns (b : QueryBuilder) (column : string) :
  is_column_safe b column = true ->
  is_column_safe (disable_protection b) column = true
  /\ is_column_safe (disable_column_validation b) column = true.
Proof.
  intros Hs. unfold is_column_safe in *. cbn [computed_properties column_validation_enabled
    protection_enabled protection valid_columns disable_protection disable_column_validation].
  destruct (computed_properties b !! column); [split; reflexivity|].
  destruct (column_validation_enabled b), (protection_enabled b), (protection b);
    simpl in *; try apply andb_prop in Hs; intuition.
Qed.

Lemma disabling_checks_keeps_safe_columns_witness :
  is_column_safe test_builder "name" = true
  /\ is_column_safe (disable_protection test_builder) "name" = true
  /\ is_column_safe (disable_column_validation test_builder) "name" = true.
Proof.
  assert (H : is_column_safe test_builder "name" = true) by (vm_compute; reflexivity).
  split; [exact H|]. exact (disabling_checks_keeps_safe_columns test_builder "name" H).
Defined.

(** Filtering with [Eq] on a registered computed property, whatever the
    protection and validation settings, compares its SQL expression with
    the next placeholder, cast by the property's declared type (or by the
    value's type when declared [Unknown]), binds the value, and activates
    the property's joins. *)
Theorem computed_property_filter_eq (b : QueryBuilder) (name : string) (f : ComputedPropertyFn)
    (v : FilterValue) :
  let '(cp, expr) := f ComputedPropertyBuilder_new in
  let b' := with_computed_property b name f in
  apply_filter b' (mkFilter name FilterOperator.Eq v)
  = set_state b'
      ((conditions b ++ [format [expr; " = "; placeholder (dialect b) (length (arguments b) + 1);
                                 type_cast (dialect b) (effective_field_type (cpb_field_type cp) v)]])%list)
      ((arguments b ++ [to_bindable_string v])%list)
      (fold_left activate_join (cpb_joins cp) (active_joins b)).
Proof.
  unfold with_computed_property. destruct (f ComputedPropertyBuilder_new) as [cp expr].
  unfold apply_filter, resolve_filter_column. cbn [computed_properties field operator value].
  rewrite lookup_insert_eq. reflexivity.
Qed.

Lemma joins_grow_refl (a : list string) : joins_grow a a.
Proof. split; [exists []; symmetry; apply app_nil_r | auto]. Qed.

Lemma joins_grow_trans (a b c : list string) : joins_grow a b -> joins_grow b c -> joins_grow a c.
Proof.
  intros [[l1 ->] H1] [[l2 ->] H2]. split; [exists (l1 ++ l2)%list; symmetry; apply app_assoc | auto].
Qed.

Lemma contains_In (l : list string) (s : string) : contains l s = true <-> In s l.
Proof.
  unfold contains. rewrite existsb_exists. split.
  - intros [x [Hx Heq]]. apply String.eqb_eq in Heq. subst. exact Hx.
  - intros H. exists s. split; [exact H | apply String.eqb_refl].
Qed.

Lemma activate_join_grow (a : list string) (j : string) : joins_grow a (activate_join a j).
Proof.
  unfold activate_join. destruct (contains a j) eqn:E; [apply joins_grow_refl|].
  split; [exists [j]; reflexivity|]. intros Hnd.
  apply NoDup_app. split; [exact Hnd|]. split; [|apply NoDup_singleton].
  intros x Hx Hx'. apply list_elem_of_singleton in Hx'. subst x.
  apply list_elem_of_In, contains_In in Hx. congruence.
Qed.

Lemma fold_activate_join_grow (js a : list string) : joins_grow a (fold_left activate_join js a).
Proof.
  revert a. induction js as [|j js IH]; intros a; [apply joins_grow_refl|].
  simpl. eapply joins_grow_trans; [apply activate_join_grow | apply IH].
Qed.

Lemma fold_activate_joins_grow (props : list ComputedProperty) (b : QueryBuilder) :
  joins_grow (active_joins b) (active_joins (fold_left activate_joins props b)).
Proof.
  revert b. induction props as [|p props IH]; intros b; [apply joins_grow_refl|].
  simpl. eapply joins_grow_trans; [|apply IH]. apply fold_activate_join_grow.
Qed.

Lemma with_search_joins_grow (b : QueryBuilder) (params : QueryParams) :
  joins_grow (active_joins b) (active_joins (with_search b params)).
Proof.
  unfold with_search.
  destruct (search (search_params params)); [|apply joins_grow_refl].
  destruct (search_columns (search_params params)); [|apply joins_grow_refl].
  destruct (negb _ && negb _); [|apply joins_grow_refl]. cbv zeta.
  destruct (negb (is_empty _)); apply fold_activate_joins_grow.
Qed.

Lemma apply_filter_joins_grow (b : QueryBuilder) (f : Filter) :
  joins_grow (active_joins b) (active_joins (apply_filter b f)).
Proof.
  unfold apply_filter, resolve_filter_column.
  destruct (computed_properties b !! field f) as [prop|].
  - cbv zeta. destruct (filter_condition _ _ _ _ _ _ _) as [[c args]|];
      apply fold_activate_join_grow.
  - destruct (negb (is_column_safe b (field f))); [apply joins_grow_refl|]. cbv zeta.
    destruct (filter_condition _ _ _ _ _ _ _) as [[c args]|]; apply joins_grow_refl.
Qed.

Lemma with_filters_joins_grow (b : QueryBuilder) (params : QueryParams) :
  joins_grow (active_joins b) (active_joins (with_filters b params)).
Proof.
  unfold with_filters. generalize (filters params) as fs. intros fs.
  revert b. induction fs as [|f fs IH]; intros b; [apply joins_grow_refl|].
  simpl. eapply joins_grow_trans; [apply apply_filter_joins_grow | apply IH].
Qed.

(** Through any sequence of [with_search] / [with_filters] calls, the
    active joins are only appended to, and a join is never activated
    twice. *)
Theorem run_calls_joins_grow (b : QueryBuilder) (calls : list BuilderCall) :
  NoDup (active_joins b) ->
  NoDup (active_joins (run_calls b calls))
  /\ exists added, active_joins (run_calls b calls) = (active_joins b ++ added)%list.
Proof.
  intros Hnd. cut (joins_grow (active_joins b) (active_joins (run_calls b calls))).
  { intros [Hp Hn]. split; [apply Hn, Hnd | exact Hp]. }
  unfold run_calls. revert b Hnd. induction calls as [|call calls IH]; intros b Hnd;
    [apply joins_grow_refl|].
  simpl. assert (Hs : joins_grow (active_joins b) (active_joins (run_call b call))).
  { destruct call; [apply with_search_joins_grow | apply with_filters_joins_grow]. }
  eapply joins_grow_trans; [exact Hs|]. apply IH. apply Hs, Hnd.
Qed.

Lemma run_calls_joins_grow_witness :
  let b := with_computed_property test_builder "counterparty_name" counterparty_name in
  let calls := [SearchCall (search_params_of (Some "acme") (Some ["counterparty_name"]));
                FiltersCall (filter_params [mkFilter "counterparty_name" FilterOperator.Eq
                                                     (FilterValue.String "Acme")])] in
  NoDup (active_joins b)
  /\ NoDup (active_joins (run_calls b calls))
  /\ exists added, active_joins (run_calls b calls) = (active_joins b ++ added)%list.
Proof.
  cbv zeta. assert (H : NoDup (active_joins (with_computed_property test_builder
                                  "counterparty_name" counterparty_name))) by constructor.
  split; [exact H|]. exact (run_calls_joins_grow _ _ H).
Defined.

(* ------------------------------------------------------------------ *)
(** ** Quoting, literals and the clauses of [PaginatedQueryBuilder] *)

Lemma read_quoted_escaped (q : ascii) (s r : string) :
  starts_with_char q r = false ->
  read_quoted q (replace_char q (String q (String q EmptyString)) s ++ String q r) = Some (s, r).
Proof.
  intros Hr. induction s as [|c s IH].
  - rewrite append_nil_l. cbn [read_quoted]. rewrite Ascii.eqb_refl.
    destruct r as [|c2 r]; [reflexivity|]. cbn [starts_with_char] in Hr. rewrite Hr. reflexivity.
  - cbn [replace_char]. destruct (Ascii.eqb c q) eqn:E.
    + apply Ascii.eqb_eq in E. subst c. rewrite !append_cons, append_nil_l.
      cbn [read_quoted]. rewrite Ascii.eqb_refl, IH. reflexivity.
    + rewrite append_cons. cbn [read_quoted]. rewrite E, IH. reflexivity.
Qed.

Lemma double_quotes_replace (s : string) :
  double_quotes s = replace_char dquote (String dquote (String dquote EmptyString)) s.
Proof.
  induction s as [|c s IH]; [reflexivity|]. cbn [double_quotes replace_char].
  destruct (Ascii.eqb c dquote); rewrite IH; reflexivity.
Qed.

Lemma read_literal_quoted (q : ascii) (s r : string) :
  starts_with_char q r = false ->
  read_literal q (String q (replace_char q (String q (String q EmptyString)) s ++ String q r))
  = Some (s, r).
Proof. intros Hr. cbn [read_literal]. rewrite Ascii.eqb_refl. apply read_quoted_escaped, Hr. Qed.

(** The dialects' [quote_identifier] round trip: reading the quoted
    identifier back (a doubled double quote standing for one) gives the
    name, whatever quotes it contains, and leaves the text that follows
    it outside the identifier. *)
Theorem quote_identifier_read_back (s r : string) :
  starts_with_char dquote r = false ->
  read_literal dquote (quote_identifier PostgresDialect s ++ r) = Some (s, r)
  /\ read_literal dquote (quote_identifier SqliteDialect s ++ r) = Some (s, r).
Proof.
  intros Hr. cbn [quote_identifier PostgresDialect SqliteDialect].
  rewrite !format_cons2, format_one, double_quotes_replace, !append_cons, append_nil_l.
  rewrite !string_app_assoc, append_cons, append_nil_l.
  split; apply read_literal_quoted, Hr.
Qed.

Lemma quote_identifier_read_back_witness :
  starts_with_char dquote " = $1" = false
  /\ read_literal dquote (quote_identifier PostgresDialect ("my" ++ String dquote "col") ++ " = $1") = Some (("my" ++ String dquote "col"), " = $1")
  /\ read_literal dquote (quote_identifier SqliteDialect ("my" ++ String dquote "col") ++ " = $1") = Some (("my" ++ String dquote "col"), " = $1").
Proof.
  assert (H : starts_with_char dquote " = $1" = false) by reflexivity.
  split; [exact H|]. exact (quote_identifier_read_back ("my" ++ String dquote "col") " = $1" H).
Defined.

(** [to_sql_string] on a [String] value round trip: reading the
    single-quoted literal back gives the string, whatever single quotes
    it contains, and leaves the text that follows it outside. *)
Theorem sql_string_literal_read_back (s r : string) :
  starts_with_char "'" r = false ->
  read_literal "'" (to_sql_string (FilterValue.String s) ++ r) = Some (s, r).
Proof.
  intros Hr. cbn [to_sql_string]. rewrite !format_cons2, format_one.
  change "'" with (String "'" EmptyString) at 1 3. change "''" with (String "'" (String "'" EmptyString)).
  rewrite !append_cons, append_nil_l, string_app_assoc, append_cons, append_nil_l.
  apply read_literal_quoted, Hr.
Qed.

Lemma read_quoted_unescaped (q : ascii) (s1 s2 : string) :
  has_char q s1 = false -> s2 <> EmptyString -> starts_with_char q s2 = false ->
  read_quoted q (s1 ++ String q (s2 ++ String q EmptyString)) = Some (s1, s2 ++ String q EmptyString).
Proof.
  intros H1 Hne H2. induction s1 as [|c s1 IH].
  - rewrite append_nil_l. cbn [read_quoted]. rewrite Ascii.eqb_refl.
    destruct s2 as [|c2 s2]; [congruence|]. cbn [starts_with_char] in H2.
    rewrite append_cons. rewrite H2. reflexivity.
  - cbn [has_char] in H1. apply orb_false_iff in H1. destruct H1 as [Hc H1].
    rewrite append_cons. cbn [read_quoted]. rewrite Hc, IH by exact H1. reflexivity.
Qed.

(** [to_sql_string] does not escape [DateTime], [Date] or [Time] values
    (they hold a [String]): a single quote inside one (not followed by
    another) ends the literal there, and the rest of the value is read as
    SQL text. *)
Theorem sql_literal_unescaped (s1 s2 : string) :
  has_char "'" s1 = false -> s2 <> EmptyString -> starts_with_char "'" s2 = false ->
  forall v, v = FilterValue.DateTime (s1 ++ "'" ++ s2) \/ v = FilterValue.Date (s1 ++ "'" ++ s2)
         \/ v = FilterValue.Time (s1 ++ "'" ++ s2) ->
  read_literal "'" (to_sql_string v) = Some (s1, s2 ++ "'").
Proof.
  intros H1 Hne H2 v Hv.
  assert (E : to_sql_string v = String "'" (s1 ++ String "'" (s2 ++ String "'" EmptyString))).
  { destruct Hv as [-> | [-> | ->]]; cbn [to_sql_string];
      rewrite !format_cons2, format_one, !string_app_assoc; reflexivity. }
  rewrite E. cbn [read_literal]. rewrite Ascii.eqb_refl. apply read_quoted_unescaped; assumption.
Qed.

Lemma sql_string_literal_read_back_witness :
  starts_with_char "'" " AND x" = false
  /\ read_literal "'" (to_sql_string (FilterValue.String "it's") ++ " AND x") = Some ("it's", " AND x").
Proof.
  assert (H : starts_with_char "'" " AND x" = false) by reflexivity.
  split; [exact H|]. exact (sql_string_literal_read_back "it's" " AND x" H).
Defined.

Lemma sql_literal_unescaped_witness :
  has_char "'" "2024-01-01" = false /\ " OR 1=1 --" <> EmptyString
  /\ starts_with_char "'" " OR 1=1 --" = false
  /\ read_literal "'" (to_sql_string (FilterValue.DateTime ("2024-01-01" ++ "'" ++ " OR 1=1 --")))
     = Some ("2024-01-01", " OR 1=1 --" ++ "'").
Proof.
  assert (H1 : has_char "'" "2024-01-01" = false) by reflexivity.
  assert (H2 : " OR 1=1 --" <> EmptyString) by discriminate.
  assert (H3 : starts_with_char "'" " OR 1=1 --" = false) by reflexivity.
  split; [exact H1|]. split; [exact H2|]. split; [exact H3|].
  exact (sql_literal_unescaped _ _ H1 H2 H3 _ (or_introl eq_refl)).
Defined.

(** *** Order clause *)

Lemma split_char_ne (sep : ascii) (s : string) : split_char sep s <> [].
Proof.
  induction s as [|c s IH]; [discriminate|]. cbn [split_char].
  destruct (Ascii.eqb c sep); [discriminate|]. destruct (split_char sep s); [congruence|discriminate].
Qed.

Lemma join_cons_char (sep : string) (c : ascii) (p : string) (ps : list string) :
  join sep (String c p :: ps) = String c (join sep (p :: ps)).
Proof. destruct ps; reflexivity. Qed.

Lemma join_split_char (s : string) : join "." (split_char "." s) = s.
Proof.
  induction s as [|c s IH]; [reflexivity|]. cbn [split_char].
  destruct (Ascii.eqb c ".") eqn:E.
  - apply Ascii.eqb_eq in E. subst c. pose proof (split_char_ne "." s) as Hne.
    destruct (split_char "." s) as [|p ps] eqn:Es; [congruence|].
    change (join "." (EmptyString :: p :: ps)) with (EmptyString ++ "." ++ join "." (p :: ps)).
    rewrite IH. reflexivity.
  - pose proof (split_char_ne "." s) as Hne.
    destruct (split_char "." s) as [|p ps]; [congruence|].
    rewrite join_cons_char, IH. reflexivity.
Qed.

Lemma strip_prefix_app (p s : string) : strip_prefix p (p ++ s) = Some s.
Proof.
  induction p as [|c p IH]; [destruct s; reflexivity|].
  rewrite append_cons. cbn [strip_prefix]. rewrite Ascii.eqb_refl. exact IH.
Qed.

Lemma quote_part_app (part r : string) :
  internal_utils.quote_part part ++ r
  = String dquote (replace_char dquote (String dquote (String dquote EmptyString)) part
                   ++ String dquote r).
Proof.
  unfold internal_utils.quote_part. rewrite !format_cons2, format_one, double_quotes_replace.
  rewrite !string_app_assoc, !append_cons, !append_nil_l. reflexivity.
Qed.

Lemma read_ident_path_join (parts : list string) (r : string) (fuel : nat) :
  parts <> [] -> (length parts <= fuel)%nat ->
  starts_with_char dquote r = false -> starts_with_char "." r = false ->
  read_ident_path fuel (join "." (map internal_utils.quote_part parts) ++ r) = Some (parts, r).
Proof.
  intros Hne. revert fuel. induction parts as [|p ps IH]; intros fuel Hf Hq Hd; [congruence|].
  destruct fuel as [|fuel]; [simpl in Hf; lia|].
  destruct ps as [|p2 ps].
  - cbn [map join]. rewrite quote_part_app. cbn [read_ident_path]. rewrite Ascii.eqb_refl.
    rewrite read_quoted_escaped by exact Hq.
    destruct r as [|c2 r]; [reflexivity|]. cbn [starts_with_char] in Hd. rewrite Hd. reflexivity.
  - change (join "." (map internal_utils.quote_part (p :: p2 :: ps)))
      with (internal_utils.quote_part p ++ "." ++ join "." (map internal_utils.quote_part (p2 :: ps))).
    rewrite string_app_assoc, quote_part_app. cbn [read_ident_path]. rewrite Ascii.eqb_refl.
    rewrite read_quoted_escaped by reflexivity. rewrite string_app_assoc, append_cons, append_nil_l.
    cbn iota. rewrite Ascii.eqb_refl.
    rewrite IH; [reflexivity | discriminate | simpl in *; lia | exact Hq | exact Hd].
Qed.

Lemma string_length_app (a b : string) :
  String.length (a ++ b) = (String.length a + String.length b)%nat.
Proof. induction a as [|c a IH]; [reflexivity|]. rewrite append_cons. simpl. rewrite IH. reflexivity. Qed.

Lemma length_join_quoted (parts : list string) (r : string) :
  (length parts <= String.length (join "." (map internal_utils.quote_part parts) ++ r))%nat.
Proof.
  induction parts as [|p ps IH]; [simpl; lia|].
  destruct ps as [|p2 ps].
  - cbn [map join]. rewrite quote_part_app. simpl. lia.
  - change (join "." (map internal_utils.quote_part (p :: p2 :: ps)))
      with (internal_utils.quote_part p ++ "." ++ join "." (map internal_utils.quote_part (p2 :: ps))).
    rewrite !string_app_assoc, string_length_app. change ("." ++ ?x) with (String "." x).
    cbn [String.length]. cbn [length] in *. lia.
Qed.

(** The [ORDER BY] clause read back: whatever the sort column, the clause
    is one path of double-quoted identifiers, the ['.']-separated parts
    of the column (which join back to it), followed by the direction. *)
Theorem order_clause_read_back (params : QueryParams) :
  read_order_clause (build_order_clause params)
  = Some (split_char "." (sort_column (sort params)), sort_direction (sort params))
  /\ join "." (split_char "." (sort_column (sort params))) = sort_column (sort params).
Proof.
  split; [|apply join_split_char].
  unfold read_order_clause, build_order_clause, internal_utils.quote_identifier.
  rewrite !format_cons2, format_one.
  rewrite strip_prefix_app.
  set (parts := split_char "." (sort_column (sort params))).
  set (order := match sort_direction (sort params) with Ascending => "ASC" | Descending => "DESC" end).
  rewrite (read_ident_path_join parts (" " ++ order)); [| apply split_char_ne | apply length_join_quoted
    | reflexivity | reflexivity].
  unfold order. destruct (sort_direction (sort params)); reflexivity.
Qed.

Lemma i64_wrap_small (z : Z) : (- 2 ^ 63 <= z < 2 ^ 63)%Z -> i64_wrap z = z.
Proof.
  intros H. unfold i64_wrap. rewrite Z.mod_small by lia. lia.
Qed.

(** When [page - 1] and [(page - 1) * page_size] fit in an [i64], the
    clause is [LIMIT page_size OFFSET (page - 1) * page_size]: page [p]
    starts right after the rows of page [p - 1], and a page below 1
    gives a negative offset. *)
Theorem limit_offset_clause (pg ps : Z) (dir : QuerySortDirection) (column : string) :
  (- 2 ^ 63 < pg < 2 ^ 63)%Z -> (- 2 ^ 63 <= (pg - 1) * ps < 2 ^ 63)%Z ->
  build_limit_offset_clause (page_params pg ps dir column)
  = format [" LIMIT "; i64_to_string ps; " OFFSET "; i64_to_string ((pg - 1) * ps)].
Proof.
  intros Hpg Hoff. unfold build_limit_offset_clause. cbn [pagination page page_size page_params].
  rewrite (i64_wrap_small (pg - 1)) by lia. rewrite i64_wrap_small by lia. reflexivity.
Qed.

Lemma limit_offset_clause_witness :
  (- 2 ^ 63 < 3 < 2 ^ 63)%Z /\ (- 2 ^ 63 <= (3 - 1) * 10 < 2 ^ 63)%Z
  /\ build_limit_offset_clause (page_params 3 10 Descending "created_at")
     = format [" LIMIT "; i64_to_string 10; " OFFSET "; i64_to_string ((3 - 1) * 10)].
Proof.
  assert (H1 : (- 2 ^ 63 < 3 < 2 ^ 63)%Z) by lia.
  assert (H2 : (- 2 ^ 63 <= (3 - 1) * 10 < 2 ^ 63)%Z) by lia.
  split; [exact H1|]. split; [exact H2|]. exact (limit_offset_clause 3 10 Descending "created_at" H1 H2).
Defined.

Lemma extract_digits_app (s1 s2 : string) :
  extract_digits_from_strings (s1 ++ s2)
  = extract_digits_from_strings s1 ++ extract_digits_from_strings s2.
Proof.
  induction s1 as [|c s1 IH]; [reflexivity|]. rewrite append_cons. cbn [extract_digits_from_strings].
  destruct (is_digit c); rewrite IH; reflexivity.
Qed.

(** [extract_digits_from_strings] keeps only ASCII digits, is idempotent,
    and distributes over concatenation. *)
Theorem extract_digits_only_digits (s s1 s2 : string) :
  (forall c, has_char c (extract_digits_from_strings s) = true -> is_digit c = true)
  /\ extract_digits_from_strings (extract_digits_from_strings s) = extract_digits_from_strings s
  /\ extract_digits_from_strings (s1 ++ s2)
     = extract_digits_from_strings s1 ++ extract_digits_from_strings s2.
Proof.
  split; [|split; [|apply extract_digits_app]].
  - induction s as [|c0 s IH]; intros c H; [discriminate|]. cbn [extract_digits_from_strings] in H.
    destruct (is_digit c0) eqn:E; [|exact (IH c H)].
    cbn [has_char] in H. apply orb_true_iff in H. destruct H as [H|H]; [|exact (IH c H)].
    apply Ascii.eqb_eq in H. subst. exact E.
  - induction s as [|c0 s IH]; [reflexivity|]. cbn [extract_digits_from_strings].
    destruct (is_digit c0) eqn:E; [|exact IH]. cbn [extract_digits_from_strings]. rewrite E, IH.
    reflexivity.
Qed.

(* ------------------------------------------------------------------ *)
(** ** Filter deserialization and search on SQLite *)

(** [parse_operator] accepts exactly the serde names of the operators:
    it maps a text to [op] iff the text is the name [op] serializes to. *)
Theorem parse_operator_round_trip (s : string) (op : FilterOperator) :
  parse_operator s = Some op <-> s = operator_name op.
Proof.
  split.
  - unfold parse_operator. intros H.
    repeat match type of H with
    | context [String.eqb s ?x] =>
        destruct (String.eqb_spec s x) as [->|_]; [simpl in H; injection H as <-; reflexivity|]
    end.
    discriminate.
  - intros ->. destruct op; reflexivity.
Qed.






Lemma split_char_length (c : ascii) (s : string) : length (split_char c s) = S (count_char c s).
Proof.
  induction s as [|c0 s IH]; [reflexivity|]. cbn [split_char count_char].
  pose proof (split_char_ne c s) as Hne.
  destruct (Ascii.eqb c0 c); [cbn [length]; rewrite IH; reflexivity|].
  destruct (split_char c s) as [|p ps]; [congruence|]. exact IH.
Qed.

(** For [in], [not_in] and [between] the value is always an array, of
    one element more than the number of commas in the text (an empty
    text or one without commas gives one element). *)
Theorem array_filter_values (parse_typed : string -> FilterValue) (op : FilterOperator) (s : string) :
  op = FilterOperator.In \/ op = FilterOperator.NotIn \/ op = FilterOperator.Between ->
  exists vs, filter_value_of parse_typed op s = FilterValue.Array vs
             /\ length vs = S (count_char "," s).
Proof.
  intros Hop. exists (parse_array_values parse_typed s).
  split; [destruct Hop as [-> | [-> | ->]]; reflexivity|].
  unfold parse_array_values. rewrite length_map. apply split_char_length.
Qed.

Lemma count_char_app (c : ascii) (a b : string) :
  count_char c (a ++ b) = (count_char c a + count_char c b)%nat.
Proof. induction a as [|c0 a IH]; [reflexivity|]. rewrite append_cons. simpl. rewrite IH. lia. Qed.

Lemma count_char_format (c : ascii) (parts : list string) :
  count_char c (format parts) = list_sum (map (count_char c) parts).
Proof.
  induction parts as [|p ps IH]; [reflexivity|].
  destruct ps as [|p2 ps]; [rewrite format_one; simpl; lia|].
  rewrite format_cons2, count_char_app, IH. reflexivity.
Qed.

Lemma count_char_double_quotes (s : string) :
  count_char "?" (double_quotes s) = count_char "?" s.
Proof.
  induction s as [|c s IH]; [reflexivity|]. cbn [double_quotes].
  destruct (Ascii.eqb c dquote) eqn:E.
  - apply Ascii.eqb_eq in E. subst c. cbn [count_char]. rewrite IH. reflexivity.
  - cbn [count_char]. rewrite IH. reflexivity.
Qed.

Lemma count_char_none (c : ascii) (s : string) : has_char c s = false -> count_char c s = O.
Proof.
  induction s as [|c0 s IH]; [reflexivity|]. cbn [has_char count_char].
  intros H. apply orb_false_iff in H. destruct H as [H0 H]. rewrite H0, IH by exact H. reflexivity.
Qed.

Lemma count_char_join (c : ascii) (sep : string) (xs : list string) :
  count_char c sep = O -> count_char c (join sep xs) = list_sum (map (count_char c) xs).
Proof.
  intros Hs. induction xs as [|x xs IH]; [reflexivity|].
  destruct xs as [|x2 xs]; [simpl; lia|].
  change (join sep (x :: x2 :: xs)) with (x ++ sep ++ join sep (x2 :: xs)).
  rewrite !count_char_app, Hs, IH. reflexivity.
Qed.

Lemma count_quote_sqlite (s : string) :
  count_char "?" (quote_identifier SqliteDialect s) = count_char "?" s.
Proof.
  cbn [quote_identifier SqliteDialect]. rewrite count_char_format. unfold list_sum.
  cbn [map fold_right]. rewrite count_char_double_quotes. simpl. lia.
Qed.

Lemma count_format_column_sqlite (b : QueryBuilder) (column : string) :
  dialect b = SqliteDialect -> has_char "?" column = false ->
  (forall p, table_prefix b = Some p -> has_char "?" p = false) ->
  count_char "?" (format_column b column) = O.
Proof.
  intros HD Hc Hp. unfold format_column. rewrite HD.
  destruct (table_prefix b) as [p|] eqn:Ep.
  - rewrite count_char_format. cbn [map list_sum]. rewrite !count_quote_sqlite.
    rewrite (count_char_none _ _ Hc), (count_char_none _ _ (Hp p eq_refl)). reflexivity.
  - rewrite count_quote_sqlite. apply count_char_none, Hc.
Qed.

Lemma with_search_shape (b : QueryBuilder) (params : QueryParams) (s : string) (columns : list string) :
  search (search_params params) = Some s ->
  search_columns (search_params params) = Some columns ->
  trim_is_empty s = false ->
  map fst (omap (search_column b s (length (arguments b) + 1)) columns) <> [] ->
  conditions (with_search b params)
  = (conditions b ++ [format ["("; join " OR " (map fst (omap (search_column b s (length (arguments b) + 1)) columns)); ")"]])%list
  /\ arguments (with_search b params) = (arguments b ++ [format ["%"; s; "%"]])%list.
Proof.
  intros Hs Hc Hne Hfr. unfold with_search. rewrite Hs, Hc.
  destruct columns as [|c0 cs]; [simpl in Hfr; congruence|].
  rewrite Hne. cbv zeta. cbn [is_empty negb andb].
  destruct (fold_activate_joins (omap snd (omap (search_column b s (length (arguments b) + 1)) (c0 :: cs))) b)
    as [js Hjs].
  rewrite Hjs. cbn [conditions arguments active_joins set_state].
  destruct (map fst _) as [|f0 fs]; [congruence|]. cbn [is_empty negb]. split; reflexivity.
Qed.

Lemma sqlite_search_column (b : QueryBuilder) (s : string) (n : nat) (column : string) :
  dialect b = SqliteDialect ->
  (forall p, table_prefix b = Some p -> has_char "?" p = false) ->
  is_column_safe b column = true -> computed_properties b !! column = None ->
  mappers b !! column = None -> has_char "?" column = false ->
  exists frag, search_column b s n column = Some (frag, None) /\ count_char "?" frag = 1%nat.
Proof.
  intros HD Hp Hsafe Hcp Hm Hq. unfold search_column. rewrite Hcp.
  destruct (mappers b !! column) as [m|] eqn:Em; [congruence|]. cbv beta iota.
  rewrite Hsafe. cbv beta iota zeta. unfold fmap, option_fmap, option_map. cbv beta iota.
  pose proof (count_format_column_sqlite b column HD Hq Hp) as Hf.
  rewrite HD. cbn [placeholder SqliteDialect].
  eexists. split; [reflexivity|].
  destruct (decide _); rewrite count_char_format; unfold list_sum; cbn [map fold_right]; rewrite Hf; reflexivity.
Qed.

(** On SQLite, a search over [k] plain columns (safe, not computed, not
    mapped, names and table prefix free of [?]) appends one condition
    holding [k] placeholders [?] but binds a single argument [%term%]. *)
Theorem sqlite_search_placeholders (b : QueryBuilder) (params : QueryParams) (s : string)
    (columns : list string) :
  dialect b = SqliteDialect ->
  (forall p, table_prefix b = Some p -> has_char "?" p = false) ->
  search (search_params params) = Some s ->
  search_columns (search_params params) = Some columns ->
  trim_is_empty s = false -> columns <> [] ->
  Forall (fun column => is_column_safe b column = true /\ computed_properties b !! column = None
                        /\ mappers b !! column = None /\ has_char "?" column = false) columns ->
  exists condition,
    conditions (with_search b params) = (conditions b ++ [condition])%list
    /\ arguments (with_search b params) = (arguments b ++ [format ["%"; s; "%"]])%list
    /\ count_char "?" condition = length columns.
Proof.
  intros HD Hp Hs Hc Hne Hcols Hall.
  set (n := (length (arguments b) + 1)%nat).
  assert (Hfr : exists frags, omap (search_column b s n) columns = map (fun f => (f, None)) frags
                 /\ Forall (fun f => count_char "?" f = 1%nat) frags /\ length frags = length columns).
  { clear Hcols Hc. induction Hall as [|column cs [Hsafe [Hcp [Hm Hq]]] _ IH].
    - exists []. split; [reflexivity|]. split; [constructor | reflexivity].
    - destruct IH as [frags [Ho [Hf Hl]]].
      destruct (sqlite_search_column b s n column HD Hp Hsafe Hcp Hm Hq) as [frag [Hr Hc1]].
      exists (frag :: frags). cbn [omap list_omap]. rewrite Hr, Ho. split; [reflexivity|].
      split; [constructor; assumption | simpl; rewrite Hl; reflexivity]. }
  destruct Hfr as [frags [Ho [Hf Hl]]].
  assert (Hm : map fst (omap (search_column b s n) columns) = frags).
  { rewrite Ho, map_map. apply map_id. }
  assert (Hne' : map fst (omap (search_column b s n) columns) <> []).
  { rewrite Hm. destruct frags; [destruct columns; [congruence | discriminate] | discriminate]. }
  destruct (with_search_shape b params s columns Hs Hc Hne Hne') as [Hcs Has].
  eexists. split; [exact Hcs|]. split; [exact Has|].
  fold n. rewrite Hm, count_char_format. unfold list_sum at 1. cbn [map fold_right].
  rewrite count_char_join by reflexivity.
  rewrite <- Hl. clear -Hf. induction Hf as [|f fs Hf1 _ IH]; [reflexivity|].
  simpl. rewrite Hf1. simpl in IH. lia.
Qed.
Lemma array_filter_values_witness :
  (FilterOperator.In = FilterOperator.In \/ FilterOperator.In = FilterOperator.NotIn
   \/ FilterOperator.In = FilterOperator.Between)
  /\ exists vs, filter_value_of (fun v => FilterValue.String v) FilterOperator.In "a, b" = FilterValue.Array vs
               /\ length vs = S (count_char "," "a, b").
Proof.
  assert (H : FilterOperator.In = FilterOperator.In \/ FilterOperator.In = FilterOperator.NotIn
              \/ FilterOperator.In = FilterOperator.Between) by (left; reflexivity).
  split; [exact H|]. exact (array_filter_values (fun v => FilterValue.String v) FilterOperator.In "a, b" H).
Defined.

Lemma sqlite_search_placeholders_witness :
  dialect sqlite_test_builder = SqliteDialect
  /\ (forall p, table_prefix sqlite_test_builder = Some p -> has_char "?" p = false)
  /\ search (search_params (search_params_of (Some "jo") (Some ["name"; "id"]))) = Some "jo"
  /\ search_columns (search_params (search_params_of (Some "jo") (Some ["name"; "id"]))) = Some ["name"; "id"]
  /\ trim_is_empty "jo" = false /\ ["name"; "id"] <> []
  /\ exists condition,
    conditions (with_search sqlite_test_builder (search_params_of (Some "jo") (Some ["name"; "id"])))
      = (conditions sqlite_test_builder ++ [condition])%list
    /\ arguments (with_search sqlite_test_builder (search_params_of (Some "jo") (Some ["name"; "id"])))
      = (arguments sqlite_test_builder ++ [format ["%"; "jo"; "%"]])%list
    /\ count_char "?" condition = length ["name"; "id"].
Proof.
  assert (HD : dialect sqlite_test_builder = SqliteDialect) by reflexivity.
  assert (Hp : forall p, table_prefix sqlite_test_builder = Some p -> has_char "?" p = false)
    by (intros p H; discriminate H).
  assert (Hs : search (search_params (search_params_of (Some "jo") (Some ["name"; "id"]))) = Some "jo")
    by reflexivity.
  assert (Hc : search_columns (search_params (search_params_of (Some "jo") (Some ["name"; "id"])))
               = Some ["name"; "id"]) by reflexivity.
  assert (Hn : trim_is_empty "jo" = false) by (vm_compute; reflexivity).
  assert (Hne : ["name"; "id"] <> []) by discriminate.
  assert (Hall : Forall (fun column => is_column_safe sqlite_test_builder column = true
                   /\ computed_properties sqlite_test_builder !! column = None
                   /\ mappers sqlite_test_builder !! column = None
                   /\ has_char "?" column = false) ["name"; "id"]).
  { repeat constructor; vm_compute; reflexivity. }
  repeat (split; [assumption|]).
  exact (sqlite_search_placeholders sqlite_test_builder (search_params_of (Some "jo") (Some ["name"; "id"]))
           "jo" ["name"; "id"] HD Hp Hs Hc Hn Hne Hall).
Defined.
